(** * rquent: the concurrent image-summary pipeline

    A shallow embedding of [pipeline.go], [image.go] and [util.go].

    - Go [int] and [uint64] are [Z] with the wrap-around written out;
      [uint8] colour channels are [Byte.byte].
    - The channels of [RqPool] are identities ([Chan]); the stage channels
      are unbuffered, so a send and its receive are one rendezvous step.
    - Goroutines are program counters in a [State]; one [step] executes one
      operation on shared state (a channel operation, an atomic add, a
      mutex-protected section) of one goroutine, chosen by a [Label] that
      also carries what the environment answers (network, decoder, writer). *)

From Stdlib Require Import ZArith Lia String Ascii List.
From Stdlib.Strings Require Import Byte.
From stdpp Require Import base tactics option list numbers strings gmap.

Local Open Scope Z_scope.

(** ** Machine integers *)

Definition wrap_int (z : Z) : Z := (z + 2 ^ 63) mod 2 ^ 64 - 2 ^ 63.
Definition wrap_uint64 (z : Z) : Z := z mod 2 ^ 64.

Definition int_range (z : Z) : Prop := - 2 ^ 63 <= z < 2 ^ 63.

(** [^uint64(0)] *)
Definition max_uint64 : Z := 2 ^ 64 - 1.

(** [atomic.AddUint64(addr, delta)] returns the new value. *)
Definition atomic_AddUint64 (v delta : Z) : Z := wrap_uint64 (v + delta).

(** ** image.go: colours and images *)

Record NRGBA := mkNRGBA { R : byte; G : byte; B : byte; A : byte }.

Global Instance byte_eq_dec : EqDecision byte := Byte.byte_eq_dec.

Global Instance NRGBA_eq_dec : EqDecision NRGBA.
Proof. solve_decision. Defined.

Global Instance byte_countable : Countable byte.
Proof.
  refine (inj_countable Byte.to_N Byte.of_N _).
  intros b. apply Byte.of_to_N.
Defined.

Global Instance NRGBA_countable : Countable NRGBA.
Proof.
  refine (inj_countable' (fun c => (R c, G c, B c, A c))
            (fun t => match t with (r, g, b, a) => mkNRGBA r g b a end) _).
  by intros [].
Defined.

(** [type colorSummary struct { colors []color.NRGBA }] *)
Record colorSummary := mkSummary { colors : list NRGBA }.

Record RqImage := mkImage {
  URL : string;
  img_size : Z;   (* [size] *)
  filePath : string;
  summary : colorSummary;
  img_nFails : Z  (* the [nFails] of the image, never used *)
}.

Global Instance colorSummary_eq_dec : EqDecision colorSummary.
Proof. solve_decision. Defined.

Global Instance RqImage_eq_dec : EqDecision RqImage.
Proof. solve_decision. Defined.

Definition NewRqImage (url : string) : RqImage :=
  {| URL := url; img_size := -1; filePath := ""%string; summary := mkSummary [];
     img_nFails := 0 |}.

(** [var PlaceholderColor = color.NRGBA{}] *)
Definition PlaceholderColor : NRGBA := mkNRGBA x00 x00 x00 x00.

(** ** util.go: hexify *)

Definition hex_digit (n : N) : ascii :=
  match n with
  | 0 => "0" | 1 => "1" | 2 => "2" | 3 => "3" | 4 => "4" | 5 => "5"
  | 6 => "6" | 7 => "7" | 8 => "8" | 9 => "9" | 10 => "a" | 11 => "b"
  | 12 => "c" | 13 => "d" | 14 => "e" | _ => "f"
  end%N%char.

(** Lowercase base-16 digits of [n], most significant first, as [%x]
    prints them; [fuel] bounds the number of digits. *)
Fixpoint hex_digits (fuel : nat) (n : N) (acc : string) : string :=
  match fuel with
  | O => acc
  | S fuel' =>
      let acc' := String (hex_digit (n mod 16)) acc in
      if (n / 16 =? 0)%N then acc' else hex_digits fuel' (n / 16) acc'
  end.

Fixpoint zeros (k : nat) : string :=
  match k with O => ""%string | S k' => String "0"%char (zeros k') end.

(** [fmt.Sprintf("%.2x", b)] for a [uint8]: the precision is the minimum
    number of digits, padded with zeros on the left. *)
Definition sprintf_02x (b : byte) : string :=
  let ds := hex_digits 2 (Byte.to_N b) ""%string in
  (zeros (2 - String.length ds) ++ ds)%string.

Definition hexify (c : NRGBA) : string :=
  ("#" ++ sprintf_02x (R c) ++ sprintf_02x (G c) ++ sprintf_02x (B c))%string.

Definition GetHexSummary (img : RqImage) : list string :=
  map hexify (colors (summary img)).

(** ** image.go: the three most prevalent colours *)

(** [counts[c]] on a Go map: a missing key reads as zero. *)
Definition count_of (counts : gmap NRGBA Z) (c : NRGBA) : Z :=
  default 0 (counts !! c).

(** [counts[c] += 1] on [uint64] values. *)
Definition count_incr (counts : gmap NRGBA Z) (c : NRGBA) : gmap NRGBA Z :=
  <[c := wrap_uint64 (count_of counts c + 1)]> counts.

(** [updateMostFrequentColors]: the slice is updated in place; the result is
    its new content, [None] when an index is out of range (a slice shorter
    than three elements). Both loops run over at most three indices and are
    written out iteration by iteration. *)
Definition updateMostFrequentColors (mostColors : list NRGBA) (c : NRGBA)
    (counts : gmap NRGBA Z) : option (list NRGBA) :=
  match mostColors with
  | m0 :: m1 :: m2 :: rest =>
      if bool_decide (c = m0) || bool_decide (c = m1) || bool_decide (c = m2)
      then
        (* case 1, j = 1 *)
        if bool_decide (c = m1) && (count_of counts m0 <? count_of counts c)
        then Some (m1 :: m0 :: m2 :: rest)
        (* j = 2 *)
        else if bool_decide (c = m2) && (count_of counts m1 <? count_of counts c)
        then Some (m0 :: m2 :: m1 :: rest)
        else Some mostColors
      else
        (* case 2 *)
        if count_of counts m2 <? count_of counts c
        then
          if bool_decide (m0 = PlaceholderColor) then Some (c :: m1 :: m2 :: rest)
          else if bool_decide (m1 = PlaceholderColor) then Some (m0 :: c :: m2 :: rest)
          else if bool_decide (m2 = PlaceholderColor) then Some (m0 :: m1 :: c :: rest)
          else Some (m0 :: m1 :: c :: rest)
        else Some mostColors
  | _ => None
  end.

(** A decoded image as the pixel loop of [getPrevalentColors] visits it:
    the red, green and blue bytes of
    [color.NRGBAModel.Convert(img.At(x, y))], column by column. *)
Definition Pixel : Type := byte * byte * byte.

Definition pixel_color (p : Pixel) : NRGBA :=
  match p with (r, g, b) => mkNRGBA r g b xff end.

Fixpoint pixel_loop (pixels : list Pixel) (counts : gmap NRGBA Z)
    (mostColors : list NRGBA) : option (list NRGBA) :=
  match pixels with
  | [] => Some mostColors
  | p :: pixels' =>
      let c := pixel_color p in
      let counts' := count_incr counts c in
      match updateMostFrequentColors mostColors c counts' with
      | Some mostColors' => pixel_loop pixels' counts' mostColors'
      | None => None
      end
  end.

(** [getPrevalentColors]: the error result is always nil, so the result is
    the summary; [None] would be a run-time panic. *)
Definition getPrevalentColors (pixels : list Pixel) : option colorSummary :=
  mkSummary <$>
    pixel_loop pixels {[PlaceholderColor := 0]}
      [PlaceholderColor; PlaceholderColor; PlaceholderColor].

(** ** pipeline.go: jobs, errors and configuration *)

(** The job channels of [RqPool]. A [chan RqJob] value held by a job is one
    of these identities or nil ([None]). *)
Inductive Chan := downloadChn | summarizeChn | cleanupChn | saveChn.

Global Instance Chan_eq_dec : EqDecision Chan.
Proof. solve_decision. Defined.

(** The one [chan RqError] of the pool; a [chan<- RqError] argument is this
    identity or nil. *)
Inductive ErrChan := poolErrorChn.

Record RqJob := mkJob {
  image : RqImage;
  retryChn : option Chan;
  nextChn : option Chan;
  nFails : Z;
  doneFlag : bool
}.

Inductive RqErrorType :=
| RqErrorDownload | RqErrorSummarize | RqErrorSave | RqErrorCleanup
| RqErrorNoRetry.

Global Instance RqErrorType_eq_dec : EqDecision RqErrorType.
Proof. solve_decision. Defined.

Record RqError := mkError {
  job : RqJob;
  errorType : RqErrorType;
  errorMsg : string
}.

Global Instance RqJob_eq_dec : EqDecision RqJob.
Proof. solve_decision. Defined.

Global Instance RqError_eq_dec : EqDecision RqError.
Proof. solve_decision. Defined.

Definition RqJobMaxFails : Z := 3.

Definition set_nFails (j : RqJob) (n : Z) : RqJob :=
  {| image := image j; retryChn := retryChn j; nextChn := nextChn j;
     nFails := n; doneFlag := doneFlag j |}.

Definition set_chans (j : RqJob) (retry next : option Chan) : RqJob :=
  {| image := image j; retryChn := retry; nextChn := next;
     nFails := nFails j; doneFlag := doneFlag j |}.

Definition set_image (j : RqJob) (img : RqImage) : RqJob :=
  {| image := img; retryChn := retryChn j; nextChn := nextChn j;
     nFails := nFails j; doneFlag := doneFlag j |}.

Definition set_filePath (img : RqImage) (p : string) : RqImage :=
  {| URL := URL img; img_size := img_size img; filePath := p; summary := summary img;
     img_nFails := img_nFails img |}.

Definition set_summary (img : RqImage) (s : colorSummary) : RqImage :=
  {| URL := URL img; img_size := img_size img; filePath := filePath img; summary := s;
     img_nFails := img_nFails img |}.

(** [NewRqError]: the job is passed by value; the record carries the copy
    whose [nFails] is one higher. *)
Definition NewRqError (j : RqJob) (ty : RqErrorType) (message : string)
    : RqError :=
  {| job := set_nFails j (wrap_int (nFails j + 1));
     errorType := ty; errorMsg := message |}.

Record PipeConfig := mkConfig { Download : Z; Summarize : Z; Cleanup : Z }.

(** The configuration fields of [RqPool]; its channels are the identities
    above, its [stopOnce] and the in-flight counter live in the run-time
    [State] below. *)
Record RqPool := mkPool { nDownload : Z; nSummarize : Z; nCleanup : Z }.

(** An [io.Reader] is what [readURLs] gets out of it: the sequence of
    [strings.TrimSpace(scanner.Text())]. An [io.Writer] is the sequence of
    byte strings written to it so far. *)
Definition Reader : Type := list string.
Definition Writer : Type := list string.

Record RqPipeline := mkPipeline {
  pool : RqPool;
  sourceURLs : option Reader;
  outFile : option Writer
}.

Definition NewPipeline (cfg : PipeConfig) : RqPipeline :=
  {| pool := {| nDownload := Download cfg; nSummarize := Summarize cfg;
                nCleanup := Cleanup cfg |};
     sourceURLs := None; outFile := None |}.

Definition WithSource (pipe : RqPipeline) (imageURLs : Reader) : RqPipeline :=
  {| pool := pool pipe; sourceURLs := Some imageURLs; outFile := outFile pipe |}.

Definition WithOutput (pipe : RqPipeline) (out : Writer) : RqPipeline :=
  {| pool := pool pipe; sourceURLs := sourceURLs pipe; outFile := Some out |}.

(** [Init] returns the pipeline and an error ([None] is nil). *)
Definition Init (pipe : RqPipeline) : RqPipeline * option string :=
  let pool := pool pipe in
  if (nDownload pool <=? 0) || (nSummarize pool <=? 0) || (nCleanup pool <=? 0)
  then (pipe, Some "Pipeline config values for workers must be greater than 0"%string)
  else if bool_decide (sourceURLs pipe = None)
  then (pipe, Some "Pipeline has no source set. Use method WithSource to set it."%string)
  else if bool_decide (outFile pipe = None)
  then (pipe, Some "Pipeline has no output file set. Use method WithSource to set it."%string)
  else (pipe, None).

(** ** The file system seen by the stages *)

(** The set of existing paths. [os.Remove] deletes an existing file and
    fails on a missing one (the empty path included). *)
Definition FS : Type := gset string.

Definition os_Remove (fs : FS) (path : string) : FS * option string :=
  if bool_decide (path ∈ fs) then (fs ∖ {[path]}, None)
  else (fs, Some ("remove " ++ path ++ ": no such file or directory")%string).

(** ** pipeline.go: the stage functions *)

(** What a stage function does with its job: a send on a job channel
    ([job.nextChn <- job]; a nil channel blocks for ever) or a send on the
    error channel. *)
Inductive Emit :=
| SendJob (c : option Chan) (j : RqJob)
| SendError (e : RqError).

(** The answers of the temp-file creation and of [downloadToFile]. *)
Inductive DownloadOutcome :=
| TempFileFails (msg : string)
| FetchFails (tmpName : string) (msg : string)
| FetchOk (tmpName : string).

Definition downloadImage (fs : FS) (j : RqJob) (o : DownloadOutcome)
    : FS * Emit :=
  match o with
  | TempFileFails msg => (fs, SendError (NewRqError j RqErrorDownload msg))
  | FetchFails tmp msg =>
      ({[tmp]} ∪ fs, SendError (NewRqError j RqErrorDownload msg))
  | FetchOk tmp =>
      let j' := set_image j (set_filePath (image j) tmp) in
      ({[tmp]} ∪ fs, SendJob (nextChn j') j')
  end.

(** The answers of [os.Open] and [image.Decode]. *)
Inductive SummarizeOutcome :=
| OpenFails (msg : string)
| DecodeFails (msg : string)
| Decoded (pixels : list Pixel).

(** [None] is a run-time panic inside [getPrevalentColors] (ruled out by
    [getPrevalentColors_total] below). *)
Definition summarizeImage (j : RqJob) (o : SummarizeOutcome) : option Emit :=
  match o with
  | OpenFails msg => Some (SendError (NewRqError j RqErrorSummarize msg))
  | DecodeFails msg => Some (SendError (NewRqError j RqErrorSummarize msg))
  | Decoded pixels =>
      s ← getPrevalentColors pixels;
      let j' := set_image j (set_summary (image j) s) in
      Some (SendJob (nextChn j') j')
  end.

Definition cleanupImage (fs : FS) (j : RqJob) (errorChn : option ErrChan)
    : FS * Emit :=
  if bool_decide (filePath (image j) = ""%string)
  then (fs, SendJob (nextChn j) j)
  else
    let '(fs', err) := os_Remove fs (filePath (image j)) in
    match err, errorChn with
    | Some msg, Some _ => (fs', SendError (NewRqError j RqErrorCleanup msg))
    | _, _ =>
        let j' := set_image j (set_filePath (image j) ""%string) in
        (fs', SendJob (nextChn j') j')
    end.

(** ** pipeline.go: the bodies of the worker loops *)

(** The body of the job case of each worker's [select]: the job is bound to
    the worker's own channel and to the next one, then the stage function
    runs. *)
Definition workDownload (fs : FS) (j : RqJob) (o : DownloadOutcome)
    : FS * Emit :=
  downloadImage fs (set_chans j (Some downloadChn) (Some summarizeChn)) o.

Definition workSummarize (j : RqJob) (o : SummarizeOutcome) : option Emit :=
  summarizeImage (set_chans j (Some summarizeChn) (Some cleanupChn)) o.

Definition workCleanup (fs : FS) (j : RqJob) : FS * Emit :=
  cleanupImage fs (set_chans j (Some cleanupChn) (Some saveChn))
    (Some poolErrorChn).

(** The worker function that receives from channel [c]; nothing but
    [writeResults] receives from [saveChn]. *)
Definition work (c : Chan) (fs : FS) (j : RqJob) (dl : DownloadOutcome)
    (sm : SummarizeOutcome) : option (FS * Emit) :=
  match c with
  | downloadChn => Some (workDownload fs j dl)
  | summarizeChn => e ← workSummarize j sm; Some (fs, e)
  | cleanupChn => Some (workCleanup fs j)
  | saveChn => None
  end.

(** ** pipeline.go: the failure handler and the completion check *)

Definition isDone (readURLsDone : bool) (imageCount : Z) : bool :=
  readURLsDone && (imageCount =? 0).

(** [handleError] up to its first operation on shared state: either the
    job is dropped (its file removed, the result of [os.Remove] ignored, and
    the counter decremented by adding [^uint64(0)]; [isDone] follows), or
    it is sent to [retryChn]. *)
Inductive HandleResult :=
| Evict (fs' : FS) (imageCount' : Z)
| Retry (c : Chan) (j : RqJob).

Definition handleError (fs : FS) (imageCount : Z) (jobError : RqError)
    : HandleResult :=
  let evict :=
    Evict (os_Remove fs (filePath (image (job jobError)))).1
          (atomic_AddUint64 imageCount max_uint64) in
  if bool_decide (errorType jobError = RqErrorNoRetry)
     || (RqJobMaxFails <=? nFails (job jobError))
     || bool_decide (retryChn (job jobError) = None)
  then evict
  else
    match retryChn (job jobError) with
    | Some c => Retry c (job jobError)
    | None => evict (* excluded by the test above *)
    end.

(** [stopWorkers]: the number of tokens its loop sends. *)
Definition nWorkers (p : RqPool) : Z :=
  wrap_int (wrap_int (wrap_int (nDownload p + nSummarize p) + nCleanup p) + 1).

(** ** pipeline.go: the result sink *)

Definition newline : string := String (ascii_of_nat 10) ""%string.

(** The bytes of one [outFile.Write] of [writeResults]. *)
Definition row (j : RqJob) : string :=
  (String.concat "," (URL (image j) :: GetHexSummary (image j)) ++ newline)%string.

(** ** The running pipeline *)

(** A stage worker ([workDownload], [workSummarize], [workCleanup]). *)
Inductive Worker :=
| WSelect                              (* waiting in its [select] *)
| WSend (c : option Chan) (j : RqJob)  (* blocked in [job.nextChn <- job] *)
| WSendErr (e : RqError)               (* blocked in [errorChn <- ...] *)
| WExit.                               (* took a token from [doneChn] *)

(** [readURLs]. *)
Inductive Feeder :=
| FScan (rest : Reader)                (* at [scanner.Scan()] *)
| FSend (j : RqJob) (rest : Reader)    (* counted; blocked in the send *)
| FReturn.                             (* [readURLsDone] is set *)

(** Inside [stopWorkers]. *)
Inductive StopPc :=
| AtOnce                               (* entering [stopOnce.Do] *)
| Sending (i : Z).                     (* in the loop, [i] tokens sent *)

(** [handleErrors] and the [handleError] it calls. *)
Inductive Handler :=
| HSelect
| HHandle (e : RqError)                (* received, entering [handleError] *)
| HRetry (c : Chan) (j : RqJob)        (* blocked in [retryChn <- job] *)
| HIsDone                              (* decremented, calling [isDone] *)
| HStop (p : StopPc)
| HExit.

(** [writeResults]. *)
Inductive Sink :=
| SRange                               (* at [range pipe.pool.saveChn] *)
| SWrite (j : RqJob)                   (* received, about to write *)
| SSendErr (e : RqError)               (* write failed; sending the error *)
| SIsDone                              (* decremented, calling [isDone] *)
| SStop (p : StopPc)
| SReturn.

(** [sync.Once]. A second caller of [Do] waits while the first one runs. *)
Inductive Once := OnceNew | OnceRunning | OnceDone.

Record State := mkState {
  feeder : Feeder;
  workers : list (Chan * Worker);  (* each with the channel it receives from *)
  handler : Handler;
  sink : Sink;
  errorChn : list RqError;         (* buffered, capacity 1000 *)
  imageCount : Z;
  readURLsDone : bool;
  stopOnce : Once;
  written : Writer;                (* the content of [outFile] *)
  files : FS;
  closed : bool;                   (* [Run] passed [wg.Wait] and closed the channels *)
  (* history, for the statements only *)
  admitted : list string;          (* URLs counted in by [readURLs] *)
  saved : list RqJob;              (* jobs whose row was written *)
  evicted : list RqJob;            (* jobs dropped by [handleError] *)
  delivered : nat                  (* tokens received from [doneChn] *)
}.

Global Instance Worker_eq_dec : EqDecision Worker.
Proof. solve_decision. Defined.

Global Instance StopPc_eq_dec : EqDecision StopPc.
Proof. solve_decision. Defined.

Global Instance Handler_eq_dec : EqDecision Handler.
Proof. solve_decision. Defined.

Definition errorChnCap : nat := 1000.

Definition set_feeder (x : Feeder) (s : State) : State :=
  mkState x (workers s) (handler s) (sink s) (errorChn s) (imageCount s)
    (readURLsDone s) (stopOnce s) (written s) (files s) (closed s)
    (admitted s) (saved s) (evicted s) (delivered s).
Definition set_workers (x : list (Chan * Worker)) (s : State) : State :=
  mkState (feeder s) x (handler s) (sink s) (errorChn s) (imageCount s)
    (readURLsDone s) (stopOnce s) (written s) (files s) (closed s)
    (admitted s) (saved s) (evicted s) (delivered s).
Definition set_handler (x : Handler) (s : State) : State :=
  mkState (feeder s) (workers s) x (sink s) (errorChn s) (imageCount s)
    (readURLsDone s) (stopOnce s) (written s) (files s) (closed s)
    (admitted s) (saved s) (evicted s) (delivered s).
Definition set_sink (x : Sink) (s : State) : State :=
  mkState (feeder s) (workers s) (handler s) x (errorChn s) (imageCount s)
    (readURLsDone s) (stopOnce s) (written s) (files s) (closed s)
    (admitted s) (saved s) (evicted s) (delivered s).
Definition set_errorChn (x : list RqError) (s : State) : State :=
  mkState (feeder s) (workers s) (handler s) (sink s) x (imageCount s)
    (readURLsDone s) (stopOnce s) (written s) (files s) (closed s)
    (admitted s) (saved s) (evicted s) (delivered s).
Definition set_imageCount (x : Z) (s : State) : State :=
  mkState (feeder s) (workers s) (handler s) (sink s) (errorChn s) x
    (readURLsDone s) (stopOnce s) (written s) (files s) (closed s)
    (admitted s) (saved s) (evicted s) (delivered s).
Definition set_readURLsDone (x : bool) (s : State) : State :=
  mkState (feeder s) (workers s) (handler s) (sink s) (errorChn s)
    (imageCount s) x (stopOnce s) (written s) (files s) (closed s)
    (admitted s) (saved s) (evicted s) (delivered s).
Definition set_stopOnce (x : Once) (s : State) : State :=
  mkState (feeder s) (workers s) (handler s) (sink s) (errorChn s)
    (imageCount s) (readURLsDone s) x (written s) (files s) (closed s)
    (admitted s) (saved s) (evicted s) (delivered s).
Definition set_written (x : Writer) (s : State) : State :=
  mkState (feeder s) (workers s) (handler s) (sink s) (errorChn s)
    (imageCount s) (readURLsDone s) (stopOnce s) x (files s) (closed s)
    (admitted s) (saved s) (evicted s) (delivered s).
Definition set_files (x : FS) (s : State) : State :=
  mkState (feeder s) (workers s) (handler s) (sink s) (errorChn s)
    (imageCount s) (readURLsDone s) (stopOnce s) (written s) x (closed s)
    (admitted s) (saved s) (evicted s) (delivered s).
Definition set_closed (x : bool) (s : State) : State :=
  mkState (feeder s) (workers s) (handler s) (sink s) (errorChn s)
    (imageCount s) (readURLsDone s) (stopOnce s) (written s) (files s) x
    (admitted s) (saved s) (evicted s) (delivered s).
Definition set_admitted (x : list string) (s : State) : State :=
  mkState (feeder s) (workers s) (handler s) (sink s) (errorChn s)
    (imageCount s) (readURLsDone s) (stopOnce s) (written s) (files s)
    (closed s) x (saved s) (evicted s) (delivered s).
Definition set_saved (x : list RqJob) (s : State) : State :=
  mkState (feeder s) (workers s) (handler s) (sink s) (errorChn s)
    (imageCount s) (readURLsDone s) (stopOnce s) (written s) (files s)
    (closed s) (admitted s) x (evicted s) (delivered s).
Definition set_evicted (x : list RqJob) (s : State) : State :=
  mkState (feeder s) (workers s) (handler s) (sink s) (errorChn s)
    (imageCount s) (readURLsDone s) (stopOnce s) (written s) (files s)
    (closed s) (admitted s) (saved s) x (delivered s).
Definition set_delivered (x : nat) (s : State) : State :=
  mkState (feeder s) (workers s) (handler s) (sink s) (errorChn s)
    (imageCount s) (readURLsDone s) (stopOnce s) (written s) (files s)
    (closed s) (admitted s) (saved s) (evicted s) x.

(** *** Labels: which goroutine moves, and what the environment answers *)

Inductive Sender := FromFeeder | FromWorker (i : nat) | FromHandler.
Inductive Receiver := ToWorker (k : nat) | ToSink.
Inductive ErrSender := ErrWorker (i : nat) | ErrSink.
(** The two callers of [isDone] and [stopWorkers]. *)
Inductive Caller := ByHandler | BySink.
Inductive TokenReceiver := TokWorker (k : nat) | TokHandler.

Inductive Label :=
| LAdmit                    (* readURLs: next URL, [atomic.AddUint64(.., 1)] *)
| LExhaust                  (* readURLs: source exhausted, flag set under [mux] *)
| LJob (from : Sender) (to : Receiver)
       (dl : DownloadOutcome) (sm : SummarizeOutcome)
                            (* a send on a job channel meets a receive *)
| LError (from : ErrSender) (* a send into the buffer of [errorChn] *)
| LHandlerRecv              (* handleErrors: receive from [errorChn] *)
| LHandle                   (* handleError: drop or requeue *)
| LWrite (err : option string)
                            (* writeResults: the write and what follows it *)
| LIsDone (who : Caller)    (* [isDone], one critical section of [mux] *)
| LOnce (who : Caller)      (* stopWorkers: entering [stopOnce.Do] *)
| LToken (who : Caller) (to : TokenReceiver)
                            (* [doneChn <- 1] meets a receive *)
| LStopReturn (who : Caller)(* stopWorkers: loop finished, return *)
| LWait                     (* Run: [wg.Wait] returns, [closeChns] *)
| LClosed.                  (* writeResults: [saveChn] is closed, return *)

(** *** The transitions *)

Definition readURLs_admit (s : State) : option State :=
  match feeder s with
  | FScan (imgURL :: rest) =>
      Some (set_feeder (FSend (mkJob (NewRqImage imgURL) None None 0 false) rest)
           (set_imageCount (atomic_AddUint64 (imageCount s) 1)
           (set_admitted (admitted s ++ [imgURL]) s)))
  | _ => None
  end.

Definition readURLs_exhaust (s : State) : option State :=
  match feeder s with
  | FScan [] => Some (set_feeder FReturn (set_readURLsDone true s))
  | _ => None
  end.

(** A goroutine blocked in a send on a job channel: the channel, the job,
    and the state once the send has completed. *)
Definition offer (from : Sender) (s : State)
    : option (option Chan * RqJob * State) :=
  match from with
  | FromFeeder =>
      match feeder s with
      | FSend j rest => Some (Some downloadChn, j, set_feeder (FScan rest) s)
      | _ => None
      end
  | FromWorker i =>
      match workers s !! i with
      | Some (c, WSend ch j) =>
          Some (ch, j, set_workers (<[i := (c, WSelect)]> (workers s)) s)
      | _ => None
      end
  | FromHandler =>
      match handler s with
      | HRetry c j => Some (Some c, j, set_handler HSelect s)
      | _ => None
      end
  end.

Definition emit_pc (e : Emit) : Worker :=
  match e with
  | SendJob c j => WSend c j
  | SendError e => WSendErr e
  end.

(** A goroutine waiting to receive from job channel [c] in [s0] takes [j];
    a worker runs its stage function on it at once. *)
Definition accept (to : Receiver) (c : Chan) (j : RqJob)
    (dl : DownloadOutcome) (sm : SummarizeOutcome) (s0 s : State)
    : option State :=
  match to with
  | ToWorker k =>
      match workers s0 !! k with
      | Some (c', WSelect) =>
          if bool_decide (c' = c) then
            '(fs', e) ← work c (files s) j dl sm;
            Some (set_files fs'
                 (set_workers (<[k := (c, emit_pc e)]> (workers s)) s))
          else None
      | _ => None
      end
  | ToSink =>
      match sink s0 with
      | SRange =>
          if bool_decide (c = saveChn) then Some (set_sink (SWrite j) s)
          else None
      | _ => None
      end
  end.

Definition step_job (from : Sender) (to : Receiver) (dl : DownloadOutcome)
    (sm : SummarizeOutcome) (s : State) : option State :=
  if closed s then None
  else
    '(ch, j, s1) ← offer from s;
    c ← ch;
    accept to c j dl sm s s1.

Definition step_error (from : ErrSender) (s : State) : option State :=
  if decide (length (errorChn s) < errorChnCap)%nat then
    match from with
    | ErrWorker i =>
        match workers s !! i with
        | Some (c, WSendErr e) =>
            Some (set_errorChn (errorChn s ++ [e])
                 (set_workers (<[i := (c, WSelect)]> (workers s)) s))
        | _ => None
        end
    | ErrSink =>
        match sink s with
        | SSendErr e =>
            Some (set_errorChn (errorChn s ++ [e]) (set_sink SRange s))
        | _ => None
        end
    end
  else None.

Definition handleErrors_recv (s : State) : option State :=
  match handler s, errorChn s with
  | HSelect, jobError :: rest =>
      Some (set_handler (HHandle jobError) (set_errorChn rest s))
  | _, _ => None
  end.

Definition step_handle (s : State) : option State :=
  match handler s with
  | HHandle jobError =>
      match handleError (files s) (imageCount s) jobError with
      | Evict fs' n' =>
          Some (set_handler HIsDone
               (set_files fs'
               (set_imageCount n'
               (set_evicted (evicted s ++ [job jobError]) s))))
      | Retry c j => Some (set_handler (HRetry c j) s)
      end
  | _ => None
  end.

(** [writeResults] from the write on: a good write is followed by the
    decrement, a failed one by the construction of the error. The write is
    private to this goroutine, so it is one step with the operation on shared
    state that follows it. A failed write leaves no row. *)
Definition writeResults_write (err : option string) (s : State)
    : option State :=
  match sink s with
  | SWrite j =>
      match err with
      | None =>
          Some (set_sink SIsDone
               (set_written (written s ++ [row j])
               (set_imageCount (atomic_AddUint64 (imageCount s) max_uint64)
               (set_saved (saved s ++ [j]) s))))
      | Some msg =>
          Some (set_sink (SSendErr (NewRqError j RqErrorNoRetry msg)) s)
      end
  | _ => None
  end.

Definition step_isDone (who : Caller) (s : State) : option State :=
  let done := isDone (readURLsDone s) (imageCount s) in
  match who with
  | ByHandler =>
      match handler s with
      | HIsDone =>
          Some (set_handler (if done then HStop AtOnce else HSelect) s)
      | _ => None
      end
  | BySink =>
      match sink s with
      | SIsDone => Some (set_sink (if done then SStop AtOnce else SRange) s)
      | _ => None
      end
  end.

Definition stop_pc (who : Caller) (s : State) : option StopPc :=
  match who with
  | ByHandler => match handler s with HStop p => Some p | _ => None end
  | BySink => match sink s with SStop p => Some p | _ => None end
  end.

Definition set_stop_pc (who : Caller) (p : StopPc) (s : State) : State :=
  match who with
  | ByHandler => set_handler (HStop p) s
  | BySink => set_sink (SStop p) s
  end.

(** After [stopWorkers], [handleError] returns to the loop of
    [handleErrors] and [writeResults] returns. *)
Definition stop_return (who : Caller) (s : State) : State :=
  match who with
  | ByHandler => set_handler HSelect s
  | BySink => set_sink SReturn s
  end.

Definition stopWorkers_once (who : Caller) (s : State) : option State :=
  match stop_pc who s with
  | Some AtOnce =>
      match stopOnce s with
      | OnceNew => Some (set_stop_pc who (Sending 0) (set_stopOnce OnceRunning s))
      | OnceRunning => None
      | OnceDone => Some (stop_return who s)
      end
  | _ => None
  end.

(** A goroutine waiting in a [select] takes a token and returns. *)
Definition take_token (to : TokenReceiver) (s : State) : option State :=
  match to with
  | TokWorker k =>
      match workers s !! k with
      | Some (c, WSelect) =>
          Some (set_workers (<[k := (c, WExit)]> (workers s)) s)
      | _ => None
      end
  | TokHandler =>
      match handler s with
      | HSelect => Some (set_handler HExit s)
      | _ => None
      end
  end.

Definition stopWorkers_send (p : RqPool) (who : Caller) (to : TokenReceiver)
    (s : State) : option State :=
  if closed s then None
  else
    match stop_pc who s with
    | Some (Sending i) =>
        if i <? nWorkers p then
          s1 ← take_token to s;
          Some (set_stop_pc who (Sending (wrap_int (i + 1)))
               (set_delivered (S (delivered s)) s1))
        else None
    | _ => None
    end.

Definition stopWorkers_return (p : RqPool) (who : Caller) (s : State)
    : option State :=
  match stop_pc who s with
  | Some (Sending i) =>
      if i <? nWorkers p then None
      else Some (stop_return who (set_stopOnce OnceDone s))
  | _ => None
  end.

Definition Run_wait (s : State) : option State :=
  if closed s then None
  else if forallb (fun w => bool_decide (w.2 = WExit)) (workers s)
          && bool_decide (handler s = HExit)
  then Some (set_closed true s)
  else None.

Definition writeResults_closed (s : State) : option State :=
  match sink s with
  | SRange => if closed s then Some (set_sink SReturn s) else None
  | _ => None
  end.

Definition step (p : RqPool) (l : Label) (s : State) : option State :=
  match l with
  | LAdmit => readURLs_admit s
  | LExhaust => readURLs_exhaust s
  | LJob from to dl sm => step_job from to dl sm s
  | LError from => step_error from s
  | LHandlerRecv => handleErrors_recv s
  | LHandle => step_handle s
  | LWrite err => writeResults_write err s
  | LIsDone who => step_isDone who s
  | LOnce who => stopWorkers_once who s
  | LToken who to => stopWorkers_send p who to s
  | LStopReturn who => stopWorkers_return p who s
  | LWait => Run_wait s
  | LClosed => writeResults_closed s
  end.

(** [Run]: the goroutines it starts. The main goroutine is the last
    cleanup worker. *)
Definition Run_workers (p : RqPool) : list (Chan * Worker) :=
  replicate (Z.to_nat (nDownload p)) (downloadChn, WSelect)
  ++ replicate (Z.to_nat (nSummarize p)) (summarizeChn, WSelect)
  ++ replicate (Z.to_nat (wrap_int (nCleanup p - 1))) (cleanupChn, WSelect)
  ++ [(cleanupChn, WSelect)].

Definition Run_start (p : RqPool) (src : Reader) (fs : FS) : State :=
  {| feeder := FScan src; workers := Run_workers p; handler := HSelect;
     sink := SRange; errorChn := []; imageCount := 0; readURLsDone := false;
     stopOnce := OnceNew; written := []; files := fs; closed := false;
     admitted := []; saved := []; evicted := []; delivered := 0%nat |}.

Fixpoint run (p : RqPool) (ls : list Label) (s : State) : option State :=
  match ls with
  | [] => Some s
  | l :: ls' => s' ← step p l s; run p ls' s'
  end.

Inductive reachable (p : RqPool) (src : Reader) (fs : FS) : State -> Prop :=
| reach_start : reachable p src fs (Run_start p src fs)
| reach_step l s s' :
    reachable p src fs s -> step p l s = Some s' -> reachable p src fs s'.

(** ** The path of one job *)










(** The position of a channel in the pipeline. *)
Definition stage_index (c : Chan) : nat :=
  match c with
  | downloadChn => 0
  | summarizeChn => 1
  | cleanupChn => 2
  | saveChn => 3
  end.

(** ** Invariants of the running pipeline *)

Definition url (j : RqJob) : string := URL (image j).

Definition feeder_jobs (f : Feeder) : list RqJob :=
  match f with FSend j _ => [j] | _ => [] end.

Definition worker_jobs (w : Chan * Worker) : list RqJob :=
  match w.2 with
  | WSend _ j => [j]
  | WSendErr e => [job e]
  | _ => []
  end.

Definition handler_jobs (h : Handler) : list RqJob :=
  match h with
  | HHandle e => [job e]
  | HRetry _ j => [j]
  | _ => []
  end.

Definition sink_jobs (k : Sink) : list RqJob :=
  match k with
  | SWrite j => [j]
  | SSendErr e => [job e]
  | _ => []
  end.

(** The jobs counted in and neither saved nor dropped yet. *)
Definition inflight (s : State) : list RqJob :=
  feeder_jobs (feeder s) ++ (workers s ≫= worker_jobs)
  ++ (job <$> errorChn s) ++ handler_jobs (handler s) ++ sink_jobs (sink s).

Definition feeder_rest (f : Feeder) : Reader :=
  match f with FScan rest => rest | FSend _ rest => rest | FReturn => [] end.

(** Some goroutine found the pipeline complete. *)
Definition triggered (s : State) : Prop :=
  stopOnce s ≠ OnceNew
  ∨ (∃ p, handler s = HStop p) ∨ (∃ p, sink s = SStop p).

Record accounting (p : RqPool) (src : Reader) (s : State) : Prop := {
  acc_perm : admitted s ≡ₚ url <$> (inflight s ++ saved s ++ evicted s);
  acc_count : imageCount s = Z.of_nat (length (inflight s));
  acc_rows : written s = row <$> saved s;
  acc_source : admitted s ++ feeder_rest (feeder s) = src;
  acc_flag : readURLsDone s = true <-> feeder s = FReturn;
  acc_workers : length (workers s) = length (Run_workers p);
  acc_buffer : (length (errorChn s) <= errorChnCap)%nat;
  acc_done : triggered s -> readURLsDone s = true ∧ imageCount s = 0
}.

(** A job offered to a stage has failed at most twice; a job in an error
    record has failed between once and three times. *)
Definition queued_ok (j : RqJob) : Prop := 0 <= nFails j <= 2.
Definition failed_ok (j : RqJob) : Prop := 1 <= nFails j <= 3.

Definition feeder_fails_ok (f : Feeder) : Prop :=
  match f with FSend j _ => queued_ok j | _ => True end.

Definition worker_fails_ok (w : Chan * Worker) : Prop :=
  match w.2 with
  | WSend _ j => queued_ok j
  | WSendErr e => failed_ok (job e)
  | _ => True
  end.

Definition handler_fails_ok (h : Handler) : Prop :=
  match h with
  | HHandle e => failed_ok (job e)
  | HRetry _ j => queued_ok j
  | _ => True
  end.

Definition sink_fails_ok (k : Sink) : Prop :=
  match k with
  | SWrite j => queued_ok j
  | SSendErr e => failed_ok (job e)
  | _ => True
  end.

Record fails_bounded (s : State) : Prop := {
  fb_feeder : feeder_fails_ok (feeder s);
  fb_workers : Forall worker_fails_ok (workers s);
  fb_errors : Forall (fun e => failed_ok (job e)) (errorChn s);
  fb_handler : handler_fails_ok (handler s);
  fb_sink : sink_fails_ok (sink s);
  fb_saved : Forall queued_ok (saved s);
  fb_evicted : Forall failed_ok (evicted s)
}.

(** The jobs the pipeline has ever held and still knows of. *)
Definition all_jobs (s : State) : list RqJob :=
  inflight s ++ saved s ++ evicted s.

(** The claim of an atomic decrement-and-check, in the words of the
    specification: while a goroutine is between its decrement and its
    completion check, no step other than that check changes the counter or
    the flag. *)
Definition decrement_check_atomic (p : RqPool) (src : Reader) (fs : FS)
    : Prop :=
  ∀ s l s', reachable p src fs s -> step p l s = Some s' ->
    (sink s = SIsDone -> l ≠ LIsDone BySink ->
       imageCount s' = imageCount s ∧ readURLsDone s' = readURLsDone s)
    ∧ (handler s = HIsDone -> l ≠ LIsDone ByHandler ->
       imageCount s' = imageCount s ∧ readURLsDone s' = readURLsDone s).

(** The exited goroutines that [stopWorkers] addresses. *)
Definition exits (ws : list (Chan * Worker)) : nat :=
  length (filter (fun w => w.2 = WExit) ws).

Definition exited_workers (s : State) : nat := exits (workers s).

Definition is_exit (w : Worker) : nat :=
  match w with WExit => 1%nat | _ => 0%nat end.

Definition handler_exited (s : State) : nat :=
  match handler s with HExit => 1%nat | _ => 0%nat end.

(** The pool passed [Init] and its worker counts add up without overflow. *)
Definition pool_ok (p : RqPool) : Prop :=
  1 <= nDownload p ∧ 1 <= nSummarize p ∧ 1 <= nCleanup p
  ∧ nDownload p + nSummarize p + nCleanup p + 1 < 2 ^ 63.

(** ** util.go, in the words of the specification: the shape [#rrggbb] *)

Definition lower_hex (a : ascii) : bool :=
  let n := nat_of_ascii a in
  ((48 <=? n) && (n <=? 57) || (97 <=? n) && (n <=? 102))%nat.

Definition hex_color_field (s : string) : bool :=
  match s with
  | String h (String r1 (String r2 (String g1 (String g2 (String b1
      (String b2 EmptyString)))))) =>
      bool_decide (h = "#"%char) && forallb lower_hex [r1; r2; g1; g2; b1; b2]
  | _ => false
  end.

(** The value of a lowercase hexadecimal digit and of a pair of them. *)
Definition hex_value (a : ascii) : N :=
  let n := N_of_ascii a in
  (if n <? 58 then n - 48 else n - 87)%N.

Definition hex_pair (a b : ascii) : N := (16 * hex_value a + hex_value b)%N.

(** ** image.go, for the statements: the colours an image has *)

Definition image_colors (pixels : list Pixel) : gset NRGBA :=
  list_to_set (pixel_color <$> pixels).

Definition distinct_colors (pixels : list Pixel) : nat :=
  size (image_colors pixels).

(** The loop invariant of [getPrevalentColors] while fewer than three
    colours have been seen: the seen colours fill the slice from the left,
    each once, and the rest still holds the placeholder; unseen colours
    count zero. *)
Definition few_colors (seen : gset NRGBA) (counts : gmap NRGBA Z)
    (mostColors : list NRGBA) : Prop :=
  ∃ l, NoDup l ∧ seen = list_to_set l ∧ (PlaceholderColor ∉ l)
       ∧ (length l < 3)%nat
       ∧ mostColors = l ++ replicate (3 - length l) PlaceholderColor
       ∧ ∀ c, c ∉ l -> count_of counts c = 0.

Definition loop_inv (seen : gset NRGBA) (counts : gmap NRGBA Z)
    (mostColors : list NRGBA) : Prop :=
  length mostColors = 3%nat
  ∧ ((3 <= size seen)%nat ∨ few_colors seen counts mostColors).

(** The check behind [sprintf_02x_shape]: two lowercase hexadecimal digits
    whose value is the byte. *)
Definition two_hex_digits (b : byte) : bool :=
  match sprintf_02x b with
  | String d1 (String d2 EmptyString) =>
      lower_hex d1 && lower_hex d2 && (hex_pair d1 d2 =? Byte.to_N b)%N
  | _ => false
  end.

Fixpoint count_char (a : ascii) (s : string) : nat :=
  match s with
  | EmptyString => 0%nat
  | String b s' => ((if bool_decide (a = b) then 1 else 0) + count_char a s')%nat
  end.

Definition newline_char : ascii := ascii_of_nat 10.

(** The URLs of the jobs in flight. *)
Definition urls (s : State) : list string := url <$> inflight s.

(** What one step does to the books: it counts a URL in, saves a job,
    drops a job, or only moves jobs between goroutines. *)
Inductive Booking :=
| Admits (u : string)
| Saves (j : RqJob)
| Drops (j : RqJob)
| Moves.

Definition booked (b : Booking) (s s' : State) : Prop :=
  match b with
  | Admits u =>
      admitted s' = admitted s ++ [u] ∧ urls s' ≡ₚ u :: urls s
      ∧ saved s' = saved s ∧ evicted s' = evicted s
      ∧ written s' = written s
      ∧ imageCount s' = atomic_AddUint64 (imageCount s) 1
  | Saves j =>
      admitted s' = admitted s ∧ urls s ≡ₚ url j :: urls s'
      ∧ saved s' = saved s ++ [j] ∧ evicted s' = evicted s
      ∧ written s' = written s ++ [row j]
      ∧ imageCount s' = atomic_AddUint64 (imageCount s) max_uint64
  | Drops j =>
      admitted s' = admitted s ∧ urls s ≡ₚ url j :: urls s'
      ∧ saved s' = saved s ∧ evicted s' = evicted s ++ [j]
      ∧ written s' = written s
      ∧ imageCount s' = atomic_AddUint64 (imageCount s) max_uint64
  | Moves =>
      admitted s' = admitted s ∧ urls s' ≡ₚ urls s
      ∧ saved s' = saved s ∧ evicted s' = evicted s
      ∧ written s' = written s
      ∧ imageCount s' = imageCount s
  end.

(** The shutdown broadcast: who sends, how many tokens were taken, and by
    whom. *)
Record tokens_ok (p : RqPool) (s : State) : Prop := {
  tk_count : delivered s = (exited_workers s + handler_exited s)%nat;
  tk_length : length (workers s) = length (Run_workers p);
  tk_new : stopOnce s = OnceNew -> delivered s = 0%nat;
  tk_handler : ∀ i, handler s = HStop (Sending i) ->
    stopOnce s = OnceRunning ∧ i = Z.of_nat (delivered s)
    ∧ ∀ i', sink s ≠ SStop (Sending i');
  tk_sink : ∀ i, sink s = SStop (Sending i) ->
    stopOnce s = OnceRunning ∧ i = Z.of_nat (delivered s);
  tk_done : stopOnce s = OnceDone -> Z.of_nat (delivered s) = nWorkers p;
  tk_closed : closed s = true ->
    handler s = HExit ∧ exited_workers s = length (workers s)
}.


(** ** Sample executions *)

(** The smallest pool [Init] accepts: one worker for each stage. *)
Definition small_pool : RqPool := mkPool 1 1 1.

(** One URL is downloaded, summarized, cleaned up and written;
    [writeResults] finds the pipeline complete, sends the four tokens, and
    [Run] returns. *)
Definition good_run : list Label :=
  [LAdmit;
   LJob FromFeeder (ToWorker 0) (FetchOk "a.tmpimg") (OpenFails "");
   LExhaust;
   LJob (FromWorker 0) (ToWorker 1) (FetchOk "")
        (Decoded [(x0a, x14, xff); (x0a, x14, xff)]);
   LJob (FromWorker 1) (ToWorker 2) (FetchOk "") (OpenFails "");
   LJob (FromWorker 2) ToSink (FetchOk "") (OpenFails "");
   LWrite None;
   LIsDone BySink;
   LOnce BySink;
   LToken BySink (TokWorker 0);
   LToken BySink (TokWorker 1);
   LToken BySink (TokWorker 2);
   LToken BySink TokHandler;
   LStopReturn BySink;
   LWait].

(** One URL whose download fails three times: the handler requeues it
    twice, drops it the third time, finds the pipeline complete and starts
    sending the tokens. *)
Definition failing_run : list Label :=
  [LAdmit;
   LJob FromFeeder (ToWorker 0) (TempFileFails "no space") (OpenFails "");
   LExhaust;
   LError (ErrWorker 0); LHandlerRecv; LHandle;
   LJob FromHandler (ToWorker 0) (FetchFails "a.tmpimg" "Url invalid")
        (OpenFails "");
   LError (ErrWorker 0); LHandlerRecv; LHandle;
   LJob FromHandler (ToWorker 0) (FetchFails "b.tmpimg" "Url invalid")
        (OpenFails "");
   LError (ErrWorker 0); LHandlerRecv; LHandle;
   LIsDone ByHandler;
   LOnce ByHandler;
   LToken ByHandler (TokWorker 0);
   LToken ByHandler (TokWorker 1);
   LToken ByHandler (TokWorker 2)].

(** One URL through the three stages to [writeResults], the write of its
    row answered by [err]. *)
Definition to_sink (tmp : string) (err : option string) : list Label :=
  [LAdmit;
   LJob FromFeeder (ToWorker 0) (FetchOk tmp) (OpenFails "");
   LJob (FromWorker 0) (ToWorker 1) (FetchOk "") (Decoded []);
   LJob (FromWorker 1) (ToWorker 2) (FetchOk "") (OpenFails "");
   LJob (FromWorker 2) ToSink (FetchOk "") (OpenFails "");
   LWrite err].

(** Two URLs: the row of the first cannot be written and its failure is
    with the handler while the row of the second is written. Both
    goroutines decrement the counter before either of them checks it. *)
Definition racing_run : list Label :=
  to_sink "a.tmpimg" (Some "disk full")
  ++ [LError ErrSink; LHandlerRecv]
  ++ to_sink "b.tmpimg" None
  ++ [LExhaust; LHandle; LIsDone BySink; LIsDone ByHandler].


(** The pipeline at rest: every goroutine waits, nothing was counted in,
    nothing is buffered and nobody has called [stopWorkers]. *)
Record idle (s : State) : Prop := {
  idle_feeder : feeder s = FScan [] ∨ feeder s = FReturn;
  idle_workers : Forall (fun w => w.2 = WSelect) (workers s);
  idle_handler : handler s = HSelect;
  idle_sink : sink s = SRange;
  idle_errors : errorChn s = [];
  idle_once : stopOnce s = OnceNew;
  idle_closed : closed s = false;
  idle_written : written s = [];
  idle_count : imageCount s = 0
}.


(** ** Summaries of the jobs behind the summarize stage *)

(** The job carries a summary of three colours, as [getPrevalentColors]
    returns it. *)
Definition summarized (j : RqJob) : Prop :=
  length (colors (summary (image j))) = 3%nat.

(** The channels behind the summarize stage. *)
Definition late (c : option Chan) : Prop :=
  c = Some cleanupChn ∨ c = Some saveChn.

Definition job_summarized (c : option Chan) (j : RqJob) : Prop :=
  late c -> summarized j.

Definition error_summarized (e : RqError) : Prop :=
  late (retryChn (job e)) -> summarized (job e).

Definition worker_summarized (w : Chan * Worker) : Prop :=
  match w.2 with
  | WSend c j => job_summarized c j
  | WSendErr e => error_summarized e
  | _ => True
  end.

Definition handler_summarized (h : Handler) : Prop :=
  match h with
  | HHandle e => error_summarized e
  | HRetry c j => job_summarized (Some c) j
  | _ => True
  end.

Definition sink_summarized (k : Sink) : Prop :=
  match k with
  | SWrite j => summarized j
  | SSendErr e => summarized (job e)
  | _ => True
  end.

Record summaries_ok (s : State) : Prop := {
  sm_workers : Forall worker_summarized (workers s);
  sm_errors : Forall error_summarized (errorChn s);
  sm_handler : handler_summarized (handler s);
  sm_sink : sink_summarized (sink s);
  sm_saved : Forall summarized (saved s)
}.


(** ** The path of one job, for the statements *)







(** The slice of [getPrevalentColors] once three colours have been seen:
    three different colours of the image, none of them the placeholder. *)
Definition own_colors (seen : gset NRGBA) (mostColors : list NRGBA) : Prop :=
  NoDup mostColors ∧ (PlaceholderColor ∉ mostColors)
  ∧ ∀ x, x ∈ mostColors -> x ∈ seen.

Definition loop_inv_full (seen : gset NRGBA) (counts : gmap NRGBA Z)
    (mostColors : list NRGBA) : Prop :=
  length mostColors = 3%nat
  ∧ (((3 <= size seen)%nat ∧ own_colors seen mostColors)
     ∨ few_colors seen counts mostColors).

(** * Properties *)

(** ** Machine arithmetic *)

Lemma wrap_int_small z : int_range z -> wrap_int z = z.
Proof.
  unfold int_range, wrap_int. intros H.
  rewrite Z.mod_small by lia. lia.
Qed.

Lemma atomic_incr n : 0 <= n < 2 ^ 64 - 1 -> atomic_AddUint64 n 1 = n + 1.
Proof.
  intros H. unfold atomic_AddUint64, wrap_uint64. apply Z.mod_small. lia.
Qed.

Lemma atomic_decr n : 1 <= n < 2 ^ 64 -> atomic_AddUint64 n max_uint64 = n - 1.
Proof.
  intros H. unfold atomic_AddUint64, wrap_uint64, max_uint64.
  replace (n + (2 ^ 64 - 1)) with (n - 1 + 1 * 2 ^ 64) by lia.
  rewrite Z.mod_add by lia. apply Z.mod_small. lia.
Qed.

(** ** Construction *)

(** C9. [Init] returns an error as soon as one of the three worker counts is
    below 1; with all three at least 1, a source and an output set, it
    returns the pipeline and no error. The same holds along the builder
    chain [NewPipeline |> WithSource |> WithOutput |> Init]. *)
Theorem Init_checks_worker_counts (pipe : RqPipeline) :
  (nDownload (pool pipe) < 1 ∨ nSummarize (pool pipe) < 1
     ∨ nCleanup (pool pipe) < 1 ->
   ∃ msg, Init pipe = (pipe, Some msg))
  ∧ (1 <= nDownload (pool pipe) -> 1 <= nSummarize (pool pipe) ->
     1 <= nCleanup (pool pipe) ->
     is_Some (sourceURLs pipe) -> is_Some (outFile pipe) ->
     Init pipe = (pipe, None))
  ∧ (∀ cfg src out,
       pipe = WithOutput (WithSource (NewPipeline cfg) src) out ->
       (Init pipe).2 = None
       <-> 1 <= Download cfg ∧ 1 <= Summarize cfg ∧ 1 <= Cleanup cfg).
Proof.
  unfold Init. split; [|split].
  - intros Hlow.
    assert ((nDownload (pool pipe) <=? 0) || (nSummarize (pool pipe) <=? 0)
            || (nCleanup (pool pipe) <=? 0) = true) as ->; [|eauto].
    rewrite !orb_true_iff, !Z.leb_le. lia.
  - intros Hd Hs Hc [src Hsrc] [out Hout].
    assert ((nDownload (pool pipe) <=? 0) || (nSummarize (pool pipe) <=? 0)
            || (nCleanup (pool pipe) <=? 0) = false) as ->.
    { rewrite !orb_false_iff, !Z.leb_gt. lia. }
    rewrite Hsrc, Hout. reflexivity.
  - intros cfg src out ->. simpl.
    destruct (Z.leb_spec (Download cfg) 0); simpl.
    { split; [discriminate | lia]. }
    destruct (Z.leb_spec (Summarize cfg) 0); simpl.
    { split; [discriminate | lia]. }
    destruct (Z.leb_spec (Cleanup cfg) 0); simpl.
    { split; [discriminate | lia]. }
    split; [lia | reflexivity].
Qed.

Lemma Init_checks_worker_counts_witness :
  (∃ msg, Init (mkPipeline (mkPool 0 2 2) (Some []) (Some []))
          = (mkPipeline (mkPool 0 2 2) (Some []) (Some []), Some msg))
  ∧ Init (mkPipeline (mkPool 10 2 2) (Some []) (Some []))
    = (mkPipeline (mkPool 10 2 2) (Some []) (Some []), None).
Proof.
  split.
  - apply (Init_checks_worker_counts
             (mkPipeline (mkPool 0 2 2) (Some []) (Some []))).
    simpl. lia.
  - apply (Init_checks_worker_counts
             (mkPipeline (mkPool 10 2 2) (Some []) (Some [])));
      simpl; try lia; eauto.
Defined.

(** ** The cleanup stage *)

(** C8. [cleanupImage] on a job whose [filePath] is empty forwards the job,
    unchanged, on its [nextChn]; no error record is built and the file
    system is left as it was, whatever it contains and whether or not an
    error channel was passed. *)
Theorem cleanupImage_without_file (fs : FS) (j : RqJob)
    (errorChn : option ErrChan) :
  filePath (image j) = ""%string ->
  cleanupImage fs j errorChn = (fs, SendJob (nextChn j) j).
Proof.
  intros Hpath. unfold cleanupImage.
  rewrite bool_decide_eq_true_2 by done. reflexivity.
Qed.

Lemma cleanupImage_without_file_witness :
  let j := mkJob (NewRqImage "http://www.test.com/valid.jpg")
             (Some cleanupChn) (Some saveChn) 0 false in
  cleanupImage {["a.tmpimg"%string]} j (Some poolErrorChn)
  = ({["a.tmpimg"%string]}, SendJob (Some saveChn) j).
Proof.
  intros j. apply (cleanupImage_without_file _ j). reflexivity.
Defined.

(** ** The failure handler *)

Lemma os_Remove_files fs path : (os_Remove fs path).1 = fs ∖ {[path]}.
Proof.
  unfold os_Remove. case_bool_decide; simpl; [done|].
  apply set_eq. intros x. rewrite elem_of_difference, elem_of_singleton.
  split; [|tauto]. intros Hx. split; [done|]. by intros ->.
Qed.

(** A stage function that fails builds its record with [NewRqError] from
    the job its worker has just bound to its own channel. *)
Lemma work_error c fs j dl sm fs' e :
  work c fs j dl sm = Some (fs', SendError e) ->
  retryChn (job e) = Some c
  ∧ nFails (job e) = wrap_int (nFails j + 1)
  ∧ image (job e) = image j
  ∧ errorType e ≠ RqErrorNoRetry.
Proof.
  destruct c; simpl; intros Hw.
  - unfold workDownload, downloadImage in Hw.
    destruct dl; simplify_eq; simpl; done.
  - unfold workSummarize, summarizeImage in Hw.
    destruct sm; simpl in Hw; simplify_eq; simpl; try done.
    destruct (getPrevalentColors pixels); simplify_eq.
  - unfold workCleanup, cleanupImage in Hw. simpl in Hw.
    case_bool_decide; [simplify_eq|].
    destruct (os_Remove fs (filePath (image j))) as [fs1 [msg|]];
      simplify_eq; simpl; done.
  - discriminate.
Qed.

(** C5. For every record [handleError] gets: if its kind is
    [RqErrorNoRetry], or the job has failed [RqJobMaxFails] (3) times or
    more, or the job has no [retryChn], the job is dropped: its file is
    removed from the file system (the result of the removal is ignored) and
    the in-flight counter is decremented. Otherwise the job is sent to its
    [retryChn]; for a record built by a failing stage that channel is the
    input channel of this very stage and the failure count of the job is one
    higher than when the stage received it. *)
Theorem handleError_drops_or_requeues (fs : FS) (n : Z) (e : RqError) :
  (errorType e = RqErrorNoRetry ∨ RqJobMaxFails <= nFails (job e)
     ∨ retryChn (job e) = None ->
   handleError fs n e
   = Evict (fs ∖ {[filePath (image (job e))]}) (atomic_AddUint64 n max_uint64)
   ∧ (1 <= n < 2 ^ 64 -> atomic_AddUint64 n max_uint64 = n - 1))
  ∧ (errorType e ≠ RqErrorNoRetry -> nFails (job e) < RqJobMaxFails ->
     ∀ c, retryChn (job e) = Some c -> handleError fs n e = Retry c (job e))
  ∧ (∀ c fs0 j dl sm,
       work c fs0 j dl sm = Some (fs, SendError e) ->
       int_range (nFails j + 1) ->
       nFails (job e) = nFails j + 1 ∧ retryChn (job e) = Some c
       ∧ (nFails j + 1 < RqJobMaxFails ->
          handleError fs n e = Retry c (job e))).
Proof.
  split; [|split].
  - intros Hterm. split; [|apply atomic_decr].
    unfold handleError. rewrite os_Remove_files.
    destruct (bool_decide (errorType e = RqErrorNoRetry)
              || (RqJobMaxFails <=? nFails (job e))
              || bool_decide (retryChn (job e) = None)) eqn:Htest; [done|].
    rewrite !orb_false_iff, !bool_decide_eq_false, Z.leb_gt in Htest.
    destruct Hterm as [? | [? | ?]]; [tauto | lia | tauto].
  - intros Hty Hn c Hc. unfold handleError.
    rewrite (bool_decide_eq_false_2 _ Hty).
    assert ((RqJobMaxFails <=? nFails (job e)) = false) as ->
      by (apply Z.leb_gt; done).
    rewrite Hc. rewrite bool_decide_eq_false_2 by done. reflexivity.
  - intros c fs0 j dl sm Hw Hrange.
    destruct (work_error _ _ _ _ _ _ _ Hw) as (Hc & Hn & _ & Hty).
    rewrite wrap_int_small in Hn by done.
    split; [done|]. split; [done|]. intros Hlt.
    unfold handleError.
    rewrite (bool_decide_eq_false_2 _ Hty).
    assert ((RqJobMaxFails <=? nFails (job e)) = false) as ->
      by (apply Z.leb_gt; lia).
    rewrite Hc. rewrite bool_decide_eq_false_2 by done. reflexivity.
Qed.

Lemma handleError_drops_or_requeues_witness :
  let j := mkJob (NewRqImage "http://www.test.com/bogus.jpg")
             None None 1 false in
  let e := NewRqError (set_chans j (Some downloadChn) (Some summarizeChn))
             RqErrorDownload "Url invalid" in
  handleError ∅ 1 e = Retry downloadChn (job e)
  ∧ nFails (job e) = 2.
Proof.
  intros j e.
  destruct (handleError_drops_or_requeues ∅ 1 e) as (_ & _ & Hstage).
  destruct (Hstage downloadChn ∅ j (TempFileFails "Url invalid")
              (OpenFails "")) as (Hn & _ & Hretry).
  - reflexivity.
  - unfold int_range. simpl. lia.
  - split; [apply Hretry; simpl; unfold RqJobMaxFails; lia | exact Hn].
Defined.

(** ** Output rows and colour summaries *)

Lemma two_hex_digits_all b : two_hex_digits b = true.
Proof. destruct b; vm_compute; reflexivity. Qed.

Lemma sprintf_02x_shape b :
  ∃ d1 d2, sprintf_02x b = String d1 (String d2 EmptyString)
    ∧ lower_hex d1 = true ∧ lower_hex d2 = true
    ∧ hex_pair d1 d2 = Byte.to_N b.
Proof.
  pose proof (two_hex_digits_all b) as H. unfold two_hex_digits in H.
  destruct (sprintf_02x b) as [|d1 [|d2 [|]]]; try discriminate.
  apply andb_true_iff in H as [H H3]. apply andb_true_iff in H as [H1 H2].
  apply N.eqb_eq in H3. eauto 10.
Qed.

Lemma hexify_shape c :
  ∃ r1 r2 g1 g2 b1 b2,
    hexify c = String "#" (String r1 (String r2 (String g1 (String g2
                 (String b1 (String b2 EmptyString))))))
    ∧ forallb lower_hex [r1; r2; g1; g2; b1; b2] = true
    ∧ hex_pair r1 r2 = Byte.to_N (R c)
    ∧ hex_pair g1 g2 = Byte.to_N (G c)
    ∧ hex_pair b1 b2 = Byte.to_N (B c).
Proof.
  destruct (sprintf_02x_shape (R c)) as (r1 & r2 & Hr & Hr1 & Hr2 & Hrv).
  destruct (sprintf_02x_shape (G c)) as (g1 & g2 & Hg & Hg1 & Hg2 & Hgv).
  destruct (sprintf_02x_shape (B c)) as (b1 & b2 & Hb & Hb1 & Hb2 & Hbv).
  exists r1, r2, g1, g2, b1, b2. unfold hexify. rewrite Hr, Hg, Hb. simpl.
  rewrite Hr1, Hr2, Hg1, Hg2, Hb1, Hb2. done.
Qed.

Lemma string_append_assoc (s1 s2 s3 : string) :
  ((s1 ++ s2) ++ s3 = s1 ++ (s2 ++ s3))%string.
Proof.
  induction s1 as [|a s1 IH]; [done|].
  change (String a ((s1 ++ s2) ++ s3) = String a (s1 ++ (s2 ++ s3)))%string.
  by rewrite IH.
Qed.

Lemma row_unfold u fs tail :
  (String.concat "," (u :: fs) ++ tail)%string
  = (u ++ fold_right (fun f acc => "," ++ f ++ acc) tail fs)%string.
Proof.
  revert u. induction fs as [|f fs IH]; intros u; [done|].
  change (String.concat "," (u :: f :: fs))
    with (u ++ "," ++ String.concat "," (f :: fs))%string.
  rewrite !string_append_assoc, IH. reflexivity.
Qed.

Lemma count_of_incr_same counts c :
  count_of (count_incr counts c) c = wrap_uint64 (count_of counts c + 1).
Proof. unfold count_of at 1, count_incr. by rewrite lookup_insert_eq. Qed.

Lemma count_of_incr_ne counts c x :
  x ≠ c -> count_of (count_incr counts c) x = count_of counts x.
Proof.
  intros Hne. unfold count_of, count_incr. by rewrite lookup_insert_ne.
Qed.

Lemma pixel_color_not_placeholder p : pixel_color p ≠ PlaceholderColor.
Proof. by destruct p as [[r g] b]. Qed.

Lemma seen_again (c : NRGBA) (l : list NRGBA) :
  c ∈ l -> ({[c]} ∪ list_to_set l : gset NRGBA) = list_to_set l.
Proof.
  intros Hc. apply set_eq. intros x.
  rewrite elem_of_union, elem_of_singleton, !elem_of_list_to_set.
  split; [intros [-> | ?]; done | by right].
Qed.

Lemma seen_new (c : NRGBA) (l : list NRGBA) :
  ({[c]} ∪ list_to_set l : gset NRGBA) = list_to_set (l ++ [c]).
Proof.
  apply set_eq. intros x.
  rewrite elem_of_union, elem_of_singleton, !elem_of_list_to_set,
    elem_of_app, list_elem_of_singleton. tauto.
Qed.

Lemma updateMostFrequentColors_length m c counts :
  length m = 3%nat ->
  ∃ m', updateMostFrequentColors m c counts = Some m' ∧ length m' = 3%nat.
Proof.
  destruct m as [|m0 [|m1 [|m2 [|]]]]; try discriminate. intros _.
  unfold updateMostFrequentColors.
  repeat case_match; eexists; (split; [reflexivity | done]).
Qed.

Lemma updateMostFrequentColors_inv seen counts m c :
  c ≠ PlaceholderColor ->
  loop_inv seen counts m ->
  ∃ m', updateMostFrequentColors m c (count_incr counts c) = Some m'
        ∧ loop_inv ({[c]} ∪ seen) (count_incr counts c) m'.
Proof.
  intros HcP [Hlen [Hbig | Hfew]].
  - destruct (updateMostFrequentColors_length m c (count_incr counts c) Hlen)
      as (m' & Hm' & Hlen').
    exists m'. split; [done|]. split; [done|]. left.
    etrans; [exact Hbig|]. apply subseteq_size, union_subseteq_r.
  - destruct Hfew as (l & Hnd & -> & HP & Hl & -> & Hcnt).
    assert (count_of (count_incr counts c) PlaceholderColor = 0) as HcntP.
    { rewrite count_of_incr_ne by done. by apply Hcnt. }
    destruct (decide (c ∈ l)) as [Hin | Hnin].
    + (* a colour seen before: at most a swap of two seen colours *)
      rewrite (seen_again _ _ Hin).
      assert (∀ l', l' ≡ₚ l ->
              loop_inv (list_to_set l) (count_incr counts c)
                (l' ++ replicate (3 - length l') PlaceholderColor)) as Hperm.
      { intros l' Hl'.
        pose proof (Permutation_length Hl') as Hlen'.
        split.
        { rewrite length_app, length_replicate. lia. }
        right. exists l'. split; [by apply (NoDup_Permutation_proper _ _ Hl')|].
        split; [by apply list_to_set_perm_L|].
        split; [intros HP'; apply HP; by apply (elem_of_Permutation_proper _ _ _ Hl')|].
        split; [lia|]. split; [done|].
        intros x Hx. rewrite count_of_incr_ne.
        - apply Hcnt. intros Hx'. apply Hx.
          by apply (elem_of_Permutation_proper _ _ _ Hl').
        - intros ->. apply Hx. by apply (elem_of_Permutation_proper _ _ _ Hl'). }
      destruct l as [|a [|b [|]]]; simpl in *; try lia.
      * by apply not_elem_of_nil in Hin.
      * apply list_elem_of_singleton in Hin as ->.
        rewrite bool_decide_eq_true_2 by done. simpl.
        rewrite (bool_decide_eq_false_2 (a = PlaceholderColor)) by done.
        simpl. eexists. split; [reflexivity|]. by apply (Hperm [a]).
      * apply NoDup_cons in Hnd as [Hab _].
        apply not_elem_of_cons in HP as [HPa HPb%not_elem_of_cons].
        destruct HPb as [HPb _].
        assert (a ≠ b) by (intros ->; apply Hab; left).
        assert (c = a ∨ c = b) as [-> | ->].
        { apply elem_of_cons in Hin as [-> | Hin]; [by left|].
          apply list_elem_of_singleton in Hin as ->. by right. }
        -- rewrite bool_decide_eq_true_2 by done. simpl.
           rewrite (bool_decide_eq_false_2 (a = b)) by done.
           rewrite (bool_decide_eq_false_2 (a = PlaceholderColor)) by done.
           simpl. eexists. split; [reflexivity|]. by apply (Hperm [a; b]).
        -- rewrite (bool_decide_eq_false_2 (b = a)) by done.
           rewrite (bool_decide_eq_true_2 (b = b)) by done. simpl.
           rewrite (bool_decide_eq_false_2 (b = PlaceholderColor)) by done.
           destruct (count_of (count_incr counts b) a
                     <? count_of (count_incr counts b) b); simpl;
             (eexists; split; [reflexivity|]).
           ++ apply (Hperm [b; a]). apply Permutation_swap.
           ++ by apply (Hperm [a; b]).
    + (* a new colour goes into the first free slot *)
      rewrite seen_new.
      assert (count_of (count_incr counts c) c = 1) as Hone.
      { rewrite count_of_incr_same, Hcnt by done. reflexivity. }
      assert (loop_inv (list_to_set (l ++ [c])) (count_incr counts c)
                ((l ++ [c]) ++
                 replicate (3 - length (l ++ [c])) PlaceholderColor))
        as Hnew.
      { assert (NoDup (l ++ [c])) as Hnd'.
        { apply NoDup_app. split; [done|]. split; [|apply NoDup_singleton].
          intros x Hx ->%list_elem_of_singleton. done. }
        split.
        { rewrite !length_app, length_replicate. simpl. lia. }
        destruct (decide (length (l ++ [c]) < 3)%nat) as [Hlt | Hge].
        - right. exists (l ++ [c]). repeat split; try done.
          + rewrite elem_of_app, list_elem_of_singleton. intros [? | ?]; done.
          + intros x Hx. apply not_elem_of_app in Hx as [Hx1 Hx2].
            rewrite count_of_incr_ne; [by apply Hcnt|].
            by intros ->; apply Hx2, list_elem_of_singleton.
        - left. rewrite size_list_to_set by done. lia. }
      destruct l as [|a [|b [|]]]; simpl in *; try lia.
      * rewrite (bool_decide_eq_false_2 (c = PlaceholderColor)) by done.
        simpl. rewrite HcntP, Hone. simpl. eexists. split; [reflexivity|].
        exact Hnew.
      * apply not_elem_of_cons in HP as [HPa _].
        apply not_elem_of_cons in Hnin as [Hca _].
        rewrite (bool_decide_eq_false_2 (c = a)) by done.
        rewrite (bool_decide_eq_false_2 (c = PlaceholderColor)) by done.
        simpl. rewrite HcntP, Hone. simpl.
        rewrite (bool_decide_eq_false_2 (a = PlaceholderColor)) by done.
        eexists. split; [reflexivity|]. exact Hnew.
      * apply not_elem_of_cons in HP as [HPa HPb%not_elem_of_cons].
        destruct HPb as [HPb _].
        apply not_elem_of_cons in Hnin as [Hca Hcb%not_elem_of_cons].
        destruct Hcb as [Hcb _].
        rewrite (bool_decide_eq_false_2 (c = a)) by done.
        rewrite (bool_decide_eq_false_2 (c = b)) by done.
        rewrite (bool_decide_eq_false_2 (c = PlaceholderColor)) by done.
        simpl. rewrite HcntP, Hone. simpl.
        rewrite (bool_decide_eq_false_2 (a = PlaceholderColor)) by done.
        rewrite (bool_decide_eq_false_2 (b = PlaceholderColor)) by done.
        eexists. split; [reflexivity|]. exact Hnew.
Qed.

Lemma pixel_loop_inv pixels : ∀ seen counts m,
  loop_inv seen counts m ->
  ∃ m' counts', pixel_loop pixels counts m = Some m'
                ∧ loop_inv (image_colors pixels ∪ seen) counts' m'.
Proof.
  induction pixels as [|p pixels IH]; intros seen counts m Hinv.
  - exists m, counts. split; [done|].
    replace (image_colors [] ∪ seen) with seen; [done|].
    apply set_eq. intros x. unfold image_colors. simpl.
    rewrite elem_of_union, elem_of_empty. tauto.
  - destruct (updateMostFrequentColors_inv seen counts m (pixel_color p)
                (pixel_color_not_placeholder p) Hinv) as (m1 & Hm1 & Hinv1).
    destruct (IH _ _ _ Hinv1) as (m' & counts' & Hloop & Hinv').
    exists m', counts'. simpl. rewrite Hm1. split; [done|].
    replace (image_colors (p :: pixels) ∪ seen)
      with (image_colors pixels ∪ ({[pixel_color p]} ∪ seen)); [done|].
    apply set_eq. intros x. unfold image_colors. simpl.
    rewrite !elem_of_union. tauto.
Qed.

Lemma loop_inv_start :
  loop_inv ∅ {[PlaceholderColor := 0]}
    [PlaceholderColor; PlaceholderColor; PlaceholderColor].
Proof.
  split; [done|]. right. exists []. split; [apply NoDup_nil_2|].
  split; [done|]. split; [apply not_elem_of_nil|].
  split; [simpl; lia|]. split; [done|].
  intros c _. unfold count_of.
  destruct (decide (c = PlaceholderColor)) as [-> | Hne].
  - by rewrite lookup_singleton_eq.
  - by rewrite lookup_singleton_ne.
Qed.

(** [getPrevalentColors] never runs out of its slice: it returns three
    colours, and an image with fewer than three colours leaves the
    placeholder in the slots that were never taken. *)
Lemma getPrevalentColors_total pixels :
  ∃ s, getPrevalentColors pixels = Some s
       ∧ length (colors s) = 3%nat
       ∧ ((distinct_colors pixels < 3)%nat ->
          drop (distinct_colors pixels) (colors s)
          = replicate (3 - distinct_colors pixels) PlaceholderColor).
Proof.
  destruct (pixel_loop_inv pixels _ _ _ loop_inv_start)
    as (m & counts & Hloop & Hlen & Hinv).
  exists (mkSummary m). unfold getPrevalentColors. rewrite Hloop.
  split; [done|]. split; [done|]. simpl. intros Hfew.
  replace (image_colors pixels ∪ ∅) with (image_colors pixels) in Hinv.
  2:{ apply set_eq. intros x. rewrite elem_of_union, elem_of_empty. tauto. }
  unfold distinct_colors in *.
  destruct Hinv as [Hbig | (l & Hnd & Hseen & _ & _ & -> & _)]; [lia|].
  rewrite Hseen, size_list_to_set by done.
  by rewrite drop_app_length.
Qed.

Lemma count_char_app a s t :
  count_char a (s ++ t)%string = (count_char a s + count_char a t)%nat.
Proof.
  induction s as [|b s IH]; [done|].
  change (String b s ++ t)%string with (String b (s ++ t)%string).
  simpl. rewrite IH. lia.
Qed.

Lemma lower_hex_not_newline d : lower_hex d = true -> newline_char ≠ d.
Proof. intros Hd <-. vm_compute in Hd. discriminate. Qed.

Lemma hexify_no_newline c : count_char newline_char (hexify c) = 0%nat.
Proof.
  destruct (hexify_shape c) as (r1 & r2 & g1 & g2 & b1 & b2 & -> & Hhex & _).
  simpl in Hhex. rewrite !andb_true_iff in Hhex.
  destruct Hhex as (H1 & H2 & H3 & H4 & H5 & H6 & _).
  simpl.
  rewrite !bool_decide_eq_false_2; try by apply lower_hex_not_newline.
  all: done.
Qed.

Lemma fields_no_newline cs tail :
  count_char newline_char
    (foldr (fun c acc => ("," ++ hexify c ++ acc)%string) tail cs)
  = count_char newline_char tail.
Proof.
  induction cs as [|c cs IH]; [done|]. simpl foldr.
  rewrite !count_char_app, hexify_no_newline, IH. done.
Qed.

Lemma row_fields j :
  row j
  = (url j ++ foldr (fun c acc => "," ++ hexify c ++ acc) newline
                (colors (summary (image j))))%string.
Proof.
  unfold row, GetHexSummary, url. rewrite row_unfold. f_equal.
  induction (colors (summary (image j))) as [|c cs IH]; [done|].
  simpl. by rewrite IH.
Qed.

(** C10. A row is the URL of the job, then for each colour of its summary a
    comma and the field of that colour, then one newline, the only one after
    the URL. Each field is [#] and six lowercase hexadecimal digits, two for
    each of R, G and B with the value of that channel; the alpha channel
    does not appear. A successful [summarizeImage] leaves exactly three
    colours in the job, so its row has three fields; an image with [d < 3]
    distinct colours gets [#000000], the placeholder, in the last [3 - d]. *)
Theorem row_format (j : RqJob) :
  row j
  = (url j ++ foldr (fun c acc => "," ++ hexify c ++ acc) newline
                (colors (summary (image j))))%string
  ∧ count_char newline_char (row j)
    = (count_char newline_char (url j) + 1)%nat
  ∧ (∀ c,
       hex_color_field (hexify c) = true
       ∧ (∀ a, hexify (mkNRGBA (R c) (G c) (B c) a) = hexify c)
       ∧ ∃ r1 r2 g1 g2 b1 b2,
           hexify c = String "#" (String r1 (String r2 (String g1 (String g2
                        (String b1 (String b2 EmptyString))))))
           ∧ hex_pair r1 r2 = Byte.to_N (R c)
           ∧ hex_pair g1 g2 = Byte.to_N (G c)
           ∧ hex_pair b1 b2 = Byte.to_N (B c))
  ∧ (∀ j0 pixels,
       ∃ j', summarizeImage j0 (Decoded pixels) = Some (SendJob (nextChn j0) j')
             ∧ url j' = url j0
             ∧ length (GetHexSummary (image j')) = 3%nat
             ∧ ((distinct_colors pixels < 3)%nat ->
                drop (distinct_colors pixels) (GetHexSummary (image j'))
                = replicate (3 - distinct_colors pixels) "#000000"%string)).
Proof.
  split; [apply row_fields|]. split.
  { rewrite row_fields, count_char_app, fields_no_newline.
    f_equal. }
  split.
  { intros c. destruct (hexify_shape c)
      as (r1 & r2 & g1 & g2 & b1 & b2 & Hc & Hhex & Hr & Hg & Hb).
    split; [|split].
    - rewrite Hc. unfold hex_color_field.
      rewrite Hhex. by rewrite bool_decide_eq_true_2.
    - done.
    - exists r1, r2, g1, g2, b1, b2. done. }
  intros j0 pixels.
  destruct (getPrevalentColors_total pixels) as (s & Hs & Hlen & Hfew).
  eexists. unfold summarizeImage. rewrite Hs. simpl.
  split; [reflexivity|]. split; [done|].
  unfold GetHexSummary. simpl. split.
  - by rewrite length_map.
  - intros Hd. change (map hexify (colors s)) with (hexify <$> colors s).
    rewrite <- fmap_drop, (Hfew Hd), fmap_replicate. done.
Qed.

Lemma row_format_witness :
  let j0 := mkJob (NewRqImage "http://www.test.com/valid.jpg")
              (Some summarizeChn) (Some cleanupChn) 0 false in
  let pixels := [(x0a, x14, xff); (x0a, x14, xff)] in
  (distinct_colors pixels < 3)%nat
  ∧ ∃ j', summarizeImage j0 (Decoded pixels) = Some (SendJob (nextChn j0) j')
          ∧ drop (distinct_colors pixels) (GetHexSummary (image j'))
            = replicate (3 - distinct_colors pixels) "#000000"%string.
Proof.
  intros j0 pixels.
  assert (distinct_colors pixels < 3)%nat as Hd by (vm_compute; lia).
  split; [exact Hd|].
  destruct (row_format j0) as (_ & _ & _ & Hsum).
  destruct (Hsum j0 pixels) as (j' & Hj' & _ & _ & Hfew).
  exists j'. split; [exact Hj' | exact (Hfew Hd)].
Defined.

(** ** Steps of the running pipeline *)

Lemma bind_lookup {A B} (f : A -> list B) (l : list A) i x :
  l !! i = Some x -> l ≫= f ≡ₚ f x ++ (delete i l ≫= f).
Proof.
  intros Hi. rewrite <- (take_drop_middle l i x Hi) at 1.
  rewrite delete_take_drop, !bind_app, bind_cons. solve_Permutation.
Qed.

Lemma bind_insert {A B} (f : A -> list B) (l : list A) i x y :
  l !! i = Some x -> <[i:=y]> l ≫= f ≡ₚ f y ++ (delete i l ≫= f).
Proof.
  intros Hi. pose proof (lookup_lt_Some _ _ _ Hi) as Hlt.
  rewrite insert_take_drop, delete_take_drop by done.
  rewrite !bind_app, bind_cons. solve_Permutation.
Qed.

(** Filling a slot that holds no job, and emptying a slot. *)
Lemma worker_jobs_fill ws i w w' :
  ws !! i = Some w -> worker_jobs w = [] ->
  <[i:=w']> ws ≫= worker_jobs ≡ₚ worker_jobs w' ++ (ws ≫= worker_jobs).
Proof.
  intros Hi Hw. rewrite (bind_insert _ _ _ _ w' Hi).
  rewrite (bind_lookup worker_jobs ws i w Hi), Hw. done.
Qed.

Lemma worker_jobs_empty ws i w w' :
  ws !! i = Some w -> worker_jobs w' = [] ->
  ws ≫= worker_jobs ≡ₚ worker_jobs w ++ (<[i:=w']> ws ≫= worker_jobs).
Proof.
  intros Hi Hw. rewrite (bind_insert _ _ _ _ w' Hi), Hw.
  by rewrite (bind_lookup worker_jobs ws i w Hi) at 1.
Qed.

Ltac unfold_step H :=
  unfold step, readURLs_admit, readURLs_exhaust, step_job, offer, accept,
    step_error, handleErrors_recv, step_handle, writeResults_write,
    step_isDone, stopWorkers_once, stopWorkers_send, take_token,
    stopWorkers_return, Run_wait, writeResults_closed, stop_pc in H.

Ltac step_cases H :=
  unfold_step H;
  repeat (first
    [ progress simplify_eq
    | match type of H with
      | context [match ?x with _ => _ end] =>
          lazymatch x with
          | context [match _ with _ => _ end] => fail
          | _ => idtac
          end;
          let E := fresh "E" in destruct x eqn:E; try discriminate H
      | context [mbind _ ?x] =>
          let E := fresh "E" in destruct x eqn:E; simpl in H;
          try discriminate H
      end ]);
  unfold set_stop_pc, stop_return in *.

Lemma work_jobs c fs j dl sm fs' e :
  work c fs j dl sm = Some (fs', e) ->
  ∃ j', worker_jobs (c, emit_pc e) = [j'] ∧ url j' = url j.
Proof.
  destruct c; simpl; intros Hw.
  - unfold workDownload, downloadImage in Hw.
    destruct dl; simplify_eq; eexists; split; reflexivity.
  - unfold workSummarize, summarizeImage in Hw.
    destruct sm; simpl in Hw; simplify_eq;
      try (eexists; split; reflexivity).
    destruct (getPrevalentColors pixels); simpl in Hw; simplify_eq.
    eexists; split; reflexivity.
  - unfold workCleanup, cleanupImage in Hw. simpl in Hw.
    case_bool_decide; [simplify_eq; eexists; split; reflexivity|].
    destruct (os_Remove fs (filePath (image j))) as [fs1 [msg|]];
      simplify_eq; eexists; split; reflexivity.
  - discriminate.
Qed.

Ltac use_pcs :=
  repeat match goal with
  | E : feeder _ = _ |- _ => rewrite !E; clear E
  | E : handler _ = _ |- _ => rewrite !E; clear E
  | E : sink _ = _ |- _ => rewrite !E; clear E
  | E : errorChn _ = _ |- _ => rewrite !E; clear E
  | E : bool_decide _ = true |- _ => apply bool_decide_eq_true_1 in E; subst
  end.

Lemma lookup_other_worker (ws : list (Chan * Worker)) i k w w' x :
  ws !! i = Some w -> ws !! k = Some w' -> w ≠ w' ->
  <[i:=x]> ws !! k = Some w'.
Proof.
  intros Hi Hk Hne. rewrite list_lookup_insert_ne; [done|].
  intros ->. congruence.
Qed.

Ltac workers_perm :=
  try match goal with
  | Hi : workers ?s !! ?i = Some (?c0, WSend ?ch ?j),
    Hk : workers ?s !! ?k = Some (?c, WSelect)
    |- context [<[?k := ?w']> (<[?i := ?x]> (workers ?s))] =>
      rewrite (worker_jobs_fill (<[i:=x]> (workers s)) k (c, WSelect) w'
                 (lookup_other_worker _ _ _ _ _ _ Hi Hk ltac:(discriminate))
                 eq_refl)
  end;
  try match goal with
  | Hk : workers ?s !! ?k = Some (?c, WSelect)
    |- context [<[?k := ?w']> (workers ?s)] =>
      rewrite (worker_jobs_fill (workers s) k (c, WSelect) w' Hk eq_refl)
  end;
  try match goal with
  | Hi : workers ?s !! ?i = Some ?w
    |- context [<[?i := ?w']> (workers ?s)] =>
      rewrite (worker_jobs_empty (workers s) i w w' Hi eq_refl)
  end;
  try match goal with
  | Hj : worker_jobs _ = _ |- _ => rewrite !Hj
  end;
  csimpl; repeat first [rewrite fmap_app | rewrite fmap_cons]; csimpl;
  try match goal with
  | Hu : url _ = url _ |- _ => rewrite !Hu
  end;
  try solve_Permutation.

Ltac book b :=
  exists b; unfold booked, urls, inflight; csimpl; use_pcs; csimpl;
  repeat split; try done; workers_perm.

Lemma handleError_Evict fs n e fs' n' :
  handleError fs n e = Evict fs' n' ->
  fs' = fs ∖ {[filePath (image (job e))]}
  ∧ n' = atomic_AddUint64 n max_uint64
  ∧ (errorType e = RqErrorNoRetry ∨ RqJobMaxFails <= nFails (job e)
     ∨ retryChn (job e) = None).
Proof.
  unfold handleError. rewrite os_Remove_files.
  destruct (bool_decide (errorType e = RqErrorNoRetry)
            || (RqJobMaxFails <=? nFails (job e))
            || bool_decide (retryChn (job e) = None)) eqn:Htest.
  - intros [= <- <-]. split; [done|]. split; [done|].
    rewrite !orb_true_iff, !bool_decide_eq_true, Z.leb_le in Htest. tauto.
  - rewrite !orb_false_iff, !bool_decide_eq_false in Htest.
    destruct (retryChn (job e)); [discriminate | tauto].
Qed.

Lemma handleError_Retry fs n e c j :
  handleError fs n e = Retry c j ->
  j = job e ∧ retryChn (job e) = Some c
  ∧ nFails (job e) < RqJobMaxFails ∧ errorType e ≠ RqErrorNoRetry.
Proof.
  unfold handleError.
  destruct (bool_decide (errorType e = RqErrorNoRetry)
            || (RqJobMaxFails <=? nFails (job e))
            || bool_decide (retryChn (job e) = None)) eqn:Htest;
    [discriminate|].
  rewrite !orb_false_iff, !bool_decide_eq_false, Z.leb_gt in Htest.
  destruct (retryChn (job e)); [|discriminate].
  intros [= <- <-]. tauto.
Qed.

Lemma step_booked p l s s' : step p l s = Some s' -> ∃ b, booked b s s'.
Proof.
  intros H. step_cases H.
  all: try match goal with
    | E : work _ _ _ _ _ = Some _ |- _ =>
        let j' := fresh "j'" in let Hj := fresh "Hj" in
        let Hu := fresh "Hu" in
        destruct (work_jobs _ _ _ _ _ _ _ E) as (j' & Hj & Hu)
    end.
  all: try (book Moves; fail).
  all: try (eexists (Admits _); unfold booked, urls, inflight; simpl;
            use_pcs; simpl; repeat split; try done; fail).
  all: try match goal with
    | E : handleError _ _ _ = Evict _ _ |- _ =>
        apply handleError_Evict in E as (-> & -> & _)
    | E : handleError _ _ _ = Retry _ _ |- _ =>
        apply handleError_Retry in E as (-> & _)
    end.
  all: try match goal with
    | |- context [if ?b then _ else _] => destruct b
    end.
  all: try (book Moves; fail).
  all: try (eexists (Drops _); unfold booked, urls, inflight; csimpl;
            use_pcs; csimpl; repeat split; try done; workers_perm; fail).
  all: try (eexists (Saves _); unfold booked, urls, inflight; csimpl;
            use_pcs; csimpl; repeat split; try done; workers_perm; fail).
Qed.

Lemma worker_jobs_length (ws : list (Chan * Worker)) :
  (length (ws ≫= worker_jobs) <= length ws)%nat.
Proof.
  induction ws as [|[c w] ws IH]; [done|].
  rewrite bind_cons, length_app. simpl.
  destruct w; simpl; lia.
Qed.

Lemma inflight_bound s :
  (length (inflight s) <= length (workers s) + length (errorChn s) + 3)%nat.
Proof.
  unfold inflight. rewrite !length_app, length_fmap.
  pose proof (worker_jobs_length (workers s)).
  destruct (feeder s), (handler s), (sink s); simpl; lia.
Qed.

Lemma Run_workers_length p :
  pool_ok p ->
  Z.of_nat (length (Run_workers p))
  = nDownload p + nSummarize p + nCleanup p.
Proof.
  unfold pool_ok, Run_workers. intros (Hd & Hs & Hc & Hsum).
  rewrite !length_app, !length_replicate. cbn [length].
  rewrite wrap_int_small by (unfold int_range; lia). lia.
Qed.

Lemma nWorkers_sum p :
  pool_ok p -> nWorkers p = nDownload p + nSummarize p + nCleanup p + 1.
Proof.
  unfold pool_ok, nWorkers. intros (Hd & Hs & Hc & Hsum).
  rewrite (wrap_int_small (nDownload p + nSummarize p))
    by (unfold int_range; lia).
  rewrite (wrap_int_small (nDownload p + nSummarize p + nCleanup p))
    by (unfold int_range; lia).
  apply wrap_int_small. unfold int_range. lia.
Qed.

Lemma booked_length b s s' :
  booked b s s' ->
  match b with
  | Admits _ => length (inflight s') = S (length (inflight s))
  | Saves _ | Drops _ => length (inflight s) = S (length (inflight s'))
  | Moves => length (inflight s') = length (inflight s)
  end.
Proof.
  destruct b; simpl; intros (_ & Hperm & _);
    apply Permutation_length in Hperm; unfold urls in Hperm;
    simpl in Hperm; rewrite !length_fmap in Hperm; done.
Qed.

(** ** The books of the pipeline *)

Lemma step_control p l s s' :
  step p l s = Some s' ->
  length (workers s') = length (workers s)
  ∧ ((length (errorChn s) <= errorChnCap)%nat ->
     (length (errorChn s') <= errorChnCap)%nat)
  ∧ ((feeder s' = feeder s ∧ readURLsDone s' = readURLsDone s
      ∧ admitted s' = admitted s)
     ∨ (∃ u rest j, feeder s = FScan (u :: rest) ∧ feeder s' = FSend j rest
          ∧ admitted s' = admitted s ++ [u]
          ∧ readURLsDone s' = readURLsDone s)
     ∨ (∃ j rest, feeder s = FSend j rest ∧ feeder s' = FScan rest
          ∧ admitted s' = admitted s ∧ readURLsDone s' = readURLsDone s)
     ∨ (feeder s = FScan [] ∧ feeder s' = FReturn
        ∧ readURLsDone s' = true ∧ admitted s' = admitted s))
  ∧ (triggered s' ->
     triggered s
     ∨ (isDone (readURLsDone s) (imageCount s) = true
        ∧ imageCount s' = imageCount s
        ∧ readURLsDone s' = readURLsDone s)).
Proof.
  intros H. step_cases H.
  all: try match goal with
    | |- context [if ?b then _ else _] => destruct b eqn:?
    end.
  all: unfold triggered; csimpl; rewrite ?length_insert, ?length_app; csimpl.
  all: split; [done|]; split; [try (intros; lia)|]; split;
    [ first [ by left
            | by right; left; eauto 10
            | by right; right; left; eauto 10
            | by right; right; right ] |].
  all: try (intros [Ht | [[q Ht] | [q Ht]]]; simplify_eq;
            first [ by right
                  | left; first [ by left
                                | right; left; eauto; fail
                                | right; right; eauto; fail ] ]).
Qed.

Lemma Run_workers_select p :
  Forall (fun w => w.2 = WSelect) (Run_workers p).
Proof.
  unfold Run_workers. rewrite !Forall_app. repeat split.
  1-3: apply Forall_replicate; done.
  by apply Forall_singleton.
Qed.

Lemma select_no_jobs (ws : list (Chan * Worker)) :
  Forall (fun w => w.2 = WSelect) ws -> ws ≫= worker_jobs = [].
Proof.
  induction 1 as [|[c w] ws Hw _ IH]; [done|].
  rewrite bind_cons, IH. simpl in Hw. by subst.
Qed.

Lemma inflight_start p src fs : inflight (Run_start p src fs) = [].
Proof.
  unfold inflight. simpl.
  by rewrite (select_no_jobs _ (Run_workers_select p)).
Qed.

Lemma accounting_start p src fs : accounting p src (Run_start p src fs).
Proof.
  split; rewrite ?inflight_start; simpl; try done.
  - lia.
  - intros [Ht | [[q Ht] | [q Ht]]]; done.
Qed.

Lemma accounting_step p src l s s' :
  pool_ok p -> accounting p src s -> step p l s = Some s' ->
  accounting p src s'.
Proof.
  intros Hp [Hperm Hcount Hrows Hsrc Hflag Hws Hbuf Hdone] H.
  destruct (step_booked _ _ _ _ H) as [b Hb].
  pose proof (booked_length _ _ _ Hb) as Hlen.
  destruct (step_control _ _ _ _ H) as (Hws' & Hbuf' & Hfeed & Htrig).
  pose proof (inflight_bound s) as Hbound.
  pose proof (Run_workers_length p Hp) as Hrw.
  assert (Z.of_nat (length (inflight s)) < 2 ^ 64 - 1) as Hsmall.
  { destruct Hp as (? & ? & ? & ?). unfold errorChnCap in Hbuf. lia. }
  assert (imageCount s' = Z.of_nat (length (inflight s'))) as Hcount'.
  { destruct b; simpl in Hb, Hlen; destruct Hb as (_ & _ & _ & _ & _ & ->).
    - rewrite atomic_incr by lia. lia.
    - rewrite atomic_decr by lia. lia.
    - rewrite atomic_decr by lia. lia.
    - lia. }
  assert (admitted s' ≡ₚ url <$> inflight s' ++ saved s' ++ evicted s')
    as Hperm'.
  { rewrite !fmap_app in Hperm |- *. fold (urls s) in Hperm. fold (urls s').
    destruct b; simpl in Hb; destruct Hb as (-> & Hu & -> & -> & _).
    - rewrite Hu, Hperm. solve_Permutation.
    - rewrite Hperm, Hu, fmap_app. simpl. solve_Permutation.
    - rewrite Hperm, Hu, fmap_app. simpl. solve_Permutation.
    - by rewrite Hu. }
  assert (written s' = row <$> saved s') as Hrows'.
  { destruct b; simpl in Hb; destruct Hb as (_ & _ & -> & _ & -> & _);
      rewrite ?fmap_app, Hrows; done. }
  split; try done.
  - destruct Hfeed as [(-> & _ & ->) | [(u & rest & j & Hf & -> & -> & _)
      | [(j & rest & Hf & -> & -> & _) | (Hf & -> & _ & ->)]]];
      try done; rewrite Hf in Hsrc; simpl in *;
      rewrite <- ?app_assoc, ?app_nil_r; rewrite ?app_nil_r in Hsrc; done.
  - destruct Hfeed as [(-> & -> & _) | [(u & rest & j & Hf & -> & _ & ->)
      | [(j & rest & Hf & -> & _ & ->) | (Hf & -> & -> & _)]]];
      try done; rewrite Hf in Hflag; split; try done;
      intros Hd; apply Hflag in Hd; done.
  - congruence.
  - by apply Hbuf'.
  - intros Ht. destruct (Htrig Ht) as [Hold | (Hd & Hc & Hr)].
    + destruct (Hdone Hold) as [Hr Hc]. split.
      * destruct Hfeed as [(_ & -> & _) | [(u & rest & j & _ & _ & _ & ->)
          | [(j & rest & _ & _ & _ & ->) | (_ & _ & -> & _)]]]; done.
      * apply Hflag in Hr.
        destruct b; simpl in Hb, Hlen.
        -- destruct Hb as (Ha & _).
           destruct Hfeed as [(_ & _ & Ha') | [(u' & rest & j & Hf & _)
             | [(j & rest & Hf & _) | (Hf & _)]]]; try congruence.
           rewrite Ha' in Ha. apply (f_equal length) in Ha.
           rewrite length_app in Ha. simpl in Ha. lia.
        -- lia.
        -- lia.
        -- destruct Hb as (_ & _ & _ & _ & _ & ->). done.
    + unfold isDone in Hd. apply andb_true_iff in Hd as [Hd1 Hd2].
      apply Z.eqb_eq in Hd2. rewrite Hc, Hr. done.
Qed.

Lemma accounting_reachable p src fs s :
  pool_ok p -> reachable p src fs s -> accounting p src s.
Proof.
  intros Hp. induction 1 as [|l s s' _ IH Hstep].
  - apply accounting_start.
  - by eapply accounting_step.
Qed.

(** ** Failure counts *)

Lemma NewRqError_failed j ty msg :
  queued_ok j -> failed_ok (job (NewRqError j ty msg)).
Proof.
  unfold queued_ok, failed_ok. simpl. intros Hj.
  rewrite wrap_int_small by (unfold int_range; lia). lia.
Qed.

Lemma work_fails_ok c fs j dl sm fs' e :
  work c fs j dl sm = Some (fs', e) -> queued_ok j ->
  worker_fails_ok (c, emit_pc e).
Proof.
  intros Hw Hj. destruct c; simpl in Hw.
  - unfold workDownload, downloadImage in Hw.
    destruct dl; simplify_eq; try (by apply NewRqError_failed); done.
  - unfold workSummarize, summarizeImage in Hw.
    destruct sm; simpl in Hw; simplify_eq;
      try (by apply NewRqError_failed).
    destruct (getPrevalentColors pixels); simpl in Hw; simplify_eq. done.
  - unfold workCleanup, cleanupImage in Hw. simpl in Hw.
    case_bool_decide; [simplify_eq; done|].
    destruct (os_Remove fs (filePath (image j))) as [fs1 [msg|]];
      simplify_eq; try (by apply NewRqError_failed); done.
  - discriminate.
Qed.

Lemma fails_bounded_start p src fs : fails_bounded (Run_start p src fs).
Proof.
  split; simpl; try done.
  eapply Forall_impl; [apply Run_workers_select|].
  intros [c w] Hw. simpl in Hw. subst. done.
Qed.

Lemma fails_bounded_step p l s s' :
  fails_bounded s -> step p l s = Some s' -> fails_bounded s'.
Proof.
  intros [Hf Hw He Hh Hk Hs Hv] H. step_cases H.
  all: try match goal with
    | |- context [if ?b then _ else _] => destruct b eqn:?
    end.
  all: repeat match goal with
    | E : feeder _ = _ |- _ => rewrite E in *; clear E
    | E : handler _ = _ |- _ => rewrite E in *; clear E
    | E : sink _ = _ |- _ => rewrite E in *; clear E
    | E : errorChn _ = _ |- _ => rewrite E in *; clear E
    | E : workers _ !! _ = Some _ |- _ =>
        pose proof (Forall_lookup_1 _ _ _ _ Hw E); apply lookup_lt_Some in E
    | E : handleError _ _ _ = Retry _ _ |- _ =>
        apply handleError_Retry in E as (-> & _ & ? & _)
    | E : work _ _ _ _ _ = Some _ |- _ =>
        eapply work_fails_ok in E; [|eassumption]
    end.
  all: split; csimpl in *; try done.
  all: repeat match goal with
    | H : Forall _ (_ :: _) |- _ => apply Forall_cons in H as [? ?]
    end.
  all: try (repeat apply Forall_insert; done).
  all: try (apply Forall_app; split; [done|]; apply Forall_singleton; done).
  all: try (by apply NewRqError_failed).
  - unfold queued_ok, failed_ok, RqJobMaxFails in *. lia.
  - by apply (NewRqError_failed j RqErrorNoRetry ""%string).
Qed.

Lemma fails_bounded_reachable p src fs s :
  reachable p src fs s -> fails_bounded s.
Proof.
  induction 1 as [|l s s' _ IH Hstep].
  - apply fails_bounded_start.
  - by eapply fails_bounded_step.
Qed.

Lemma inflight_fails_ok s j :
  fails_bounded s -> j ∈ all_jobs s -> 0 <= nFails j <= RqJobMaxFails.
Proof.
  intros [Hf Hw He Hh Hk Hs Hv]. unfold all_jobs, inflight.
  rewrite !elem_of_app, list_elem_of_bind, list_elem_of_fmap.
  unfold RqJobMaxFails.
  intros [[Hj | [(w & Hj & Hin) | [(e & -> & Hin) | [Hj | Hj]]]]
         | [Hj | Hj]].
  - destruct (feeder s); simpl in *; decompose_list_elem_of; subst.
    unfold queued_ok in Hf. lia.
  - rewrite Forall_forall in Hw. apply Hw in Hin.
    unfold worker_fails_ok in Hin. unfold worker_jobs in Hj.
    destruct (w.2); simpl in *; decompose_list_elem_of; subst;
      unfold queued_ok, failed_ok in Hin; lia.
  - rewrite Forall_forall in He. apply He in Hin.
    unfold failed_ok in Hin. lia.
  - destruct (handler s); simpl in *; decompose_list_elem_of; subst;
      unfold queued_ok, failed_ok in Hh; lia.
  - destruct (sink s); simpl in *; decompose_list_elem_of; subst;
      unfold queued_ok, failed_ok in Hk; lia.
  - rewrite Forall_forall in Hs. apply Hs in Hj. unfold queued_ok in Hj. lia.
  - rewrite Forall_forall in Hv. apply Hv in Hj. unfold failed_ok in Hj. lia.
Qed.

(** ** The shutdown broadcast *)

Lemma exits_le ws : (exits ws <= length ws)%nat.
Proof. apply length_filter. Qed.

Lemma exits_insert ws k w w' :
  ws !! k = Some w ->
  (exits (<[k:=w']> ws) + is_exit w.2 = exits ws + is_exit w'.2)%nat.
Proof.
  intros Hk. pose proof (lookup_lt_Some _ _ _ Hk) as Hlt. unfold exits.
  rewrite insert_take_drop by done.
  rewrite <- (take_drop_middle ws k w Hk) at 3.
  rewrite !filter_app, !filter_cons, !length_app.
  destruct w as [c pc], w' as [c' pc']. simpl.
  repeat case_decide; simpl in *; destruct pc, pc'; simpl in *;
    try done; lia.
Qed.

Lemma exits_all ws :
  forallb (fun w => bool_decide (w.2 = WExit)) ws = true ->
  exits ws = length ws.
Proof.
  unfold exits. induction ws as [|w ws IH]; [done|]. simpl.
  intros [Hw Hws]%andb_true_iff. apply bool_decide_eq_true_1 in Hw.
  rewrite filter_cons_True by done. simpl. by rewrite IH.
Qed.

Lemma tokens_start p src fs : tokens_ok p (Run_start p src fs).
Proof.
  split; simpl; try done.
  unfold exited_workers, exits, handler_exited. simpl.
  pose proof (Run_workers_select p) as Hsel.
  induction Hsel as [|[c w] ws Hw _ IH]; [done|].
  simpl in Hw. subst. by rewrite filter_cons_False.
Qed.

Lemma tokens_step p l s s' :
  pool_ok p -> tokens_ok p s -> step p l s = Some s' -> tokens_ok p s'.
Proof.
  intros Hp [Hcount Hlen Hnew Hh Hk Hdone Hclosed] H.
  pose proof (exits_le (workers s)) as Hle.
  pose proof (Run_workers_length p Hp) as Hrw.
  pose proof (nWorkers_sum p Hp) as Hnw.
  step_cases H.
  all: try match goal with
    | |- context [if ?b then _ else _] => destruct b eqn:?
    end.
  all: try match goal with e : Emit |- _ => destruct e end.
  all: try match goal with
    | Hi : workers ?s !! ?i = Some ?wi, Hk : workers ?s !! ?k = Some ?wk
      |- context [<[?k := ?wk']> (<[?i := ?wi']> (workers ?s))] =>
        pose proof (exits_insert _ _ _ wk'
          (lookup_other_worker _ _ _ _ _ wi' Hi Hk ltac:(discriminate)));
        pose proof (exits_insert _ _ _ wi' Hi)
    | Hk : workers ?s !! ?k = Some ?wk
      |- context [<[?k := ?wk']> (workers ?s)] =>
        pose proof (exits_insert _ _ _ wk' Hk)
    end.
  all: split.
  all: unfold exited_workers, handler_exited in *; csimpl in *.
  all: repeat match goal with
    | E : handler _ = _ |- _ => rewrite E in *; clear E
    | E : sink _ = _ |- _ => rewrite E in *; clear E
    | E : stopOnce _ = _ |- _ => rewrite E in *; clear E
    | E : closed _ = _ |- _ => rewrite E in *; clear E
    end.
  all: csimpl in *; rewrite ?length_insert; try done; try lia.
  all: intros; simplify_eq.
  all: repeat match goal with
    | H : ∀ i, HStop (Sending ?j) = HStop (Sending i) -> _ |- _ =>
        destruct (H _ eq_refl) as (? & ? & ?); clear H
    | H : ∀ i, SStop (Sending ?j) = SStop (Sending i) -> _ |- _ =>
        destruct (H _ eq_refl) as (? & ?); clear H
    | H : ∀ i, ?X = HStop (Sending i) -> _, E : ?X = HStop (Sending _) |- _ =>
        destruct (H _ E) as (? & ? & ?); clear H
    | H : ∀ i, ?X = SStop (Sending i) -> _, E : ?X = SStop (Sending _) |- _ =>
        destruct (H _ E) as (? & ?); clear H
    | H : ?a = ?a -> _ |- _ => specialize (H eq_refl)
    | H : ?X = ?v -> _, E : ?X = ?v |- _ => specialize (H E)
    | H : _ ∧ _ |- _ => destruct H
    end.
  all: simplify_eq; repeat split; try done; try lia; try congruence.
  all: try (intros i' Hs;
            match goal with H : ∀ i, sink _ = _ -> _ |- _ =>
              destruct (H _ Hs) end; done).
  all: try match goal with
    | E : (_ <? _) = true |- _ => apply Z.ltb_lt in E
    | E : (_ <? _) = false |- _ => apply Z.ltb_ge in E
    end.
  all: destruct Hp as (? & ? & ? & ?).
  all: try (rewrite wrap_int_small by (unfold int_range; lia); lia).
  all: try lia.
  all: try match goal with
    | E : _ && _ = true |- _ =>
        apply andb_true_iff in E as [Hall Hx];
        apply bool_decide_eq_true_1 in Hx; apply exits_all in Hall; done
    end.
  destruct (handler s); lia.
Qed.

Lemma tokens_reachable p src fs s :
  pool_ok p -> reachable p src fs s -> tokens_ok p s.
Proof.
  intros Hp Hr. induction Hr; eauto using tokens_start, tokens_step.
Qed.

(** ** Whole executions *)

Lemma run_reachable p src fs ls : ∀ s s',
  reachable p src fs s -> run p ls s = Some s' -> reachable p src fs s'.
Proof.
  induction ls as [|l ls IH]; simpl; intros s s' Hr H; [by simplify_eq|].
  destruct (step p l s) as [s1|] eqn:Hs; [|done].
  eapply IH; [|exact H]. by eapply reach_step.
Qed.

Lemma run_from_start p src fs ls s :
  run p ls (Run_start p src fs) = Some s -> reachable p src fs s.
Proof. apply run_reachable, reach_start. Qed.

Lemma small_pool_ok : pool_ok small_pool.
Proof. unfold pool_ok, small_pool. simpl. lia. Qed.

Lemma length_zero_nil {A} (l : list A) : Z.of_nat (length l) = 0 -> l = [].
Proof. destruct l; [done|]. simpl. lia. Qed.

(** Once a goroutine has found the pipeline complete, nothing is in flight
    and the whole source has been counted in. *)
Lemma accounting_settled p src s :
  accounting p src s -> triggered s ->
  inflight s = [] ∧ admitted s = src
  ∧ src ≡ₚ url <$> (saved s ++ evicted s).
Proof.
  intros [Hperm Hcount _ Hsrc Hflag _ _ Hdone] Ht.
  destruct (Hdone Ht) as [Hf Hz].
  rewrite Hz in Hcount. symmetry in Hcount. apply length_zero_nil in Hcount.
  apply Hflag in Hf. rewrite Hf in Hsrc. simpl in Hsrc.
  rewrite app_nil_r in Hsrc. rewrite Hcount in Hperm. simpl in Hperm.
  split; [done|]. split; [done|]. by rewrite <- Hsrc.
Qed.

(** X1. At every point of every execution, the URLs [readURLs] has counted
    in are, as a multiset, the URLs of the jobs in flight, written or
    dropped; the in-flight counter is the number of jobs in flight; and the
    URLs counted in so far are a prefix of the source. *)
Theorem Run_accounts_for_every_url (p : RqPool) (src : Reader) (fs : FS)
    (s : State) :
  pool_ok p -> reachable p src fs s ->
  admitted s ≡ₚ url <$> (inflight s ++ saved s ++ evicted s)
  ∧ imageCount s = Z.of_nat (length (inflight s))
  ∧ admitted s ++ feeder_rest (feeder s) = src.
Proof.
  intros Hp Hr. destruct (accounting_reachable _ _ _ _ Hp Hr). done.
Qed.

Lemma Run_accounts_for_every_url_witness :
  ∃ s, run small_pool (take 12 failing_run)
         (Run_start small_pool ["http://www.test.com/bogus.jpg"%string] ∅)
       = Some s
       ∧ imageCount s = 1
       ∧ imageCount s = Z.of_nat (length (inflight s)).
Proof.
  eexists. split; [vm_compute; reflexivity|]. split; [reflexivity|].
  eapply (Run_accounts_for_every_url small_pool
            ["http://www.test.com/bogus.jpg"%string] ∅).
  - apply small_pool_ok.
  - apply (run_from_start _ _ _ (take 12 failing_run)).
    vm_compute. reflexivity.
Defined.

(** X2. When a goroutine finds the pipeline complete ([isDone] answered
    true, so [stopWorkers] is called), no job is in flight, the whole source
    has been read, and every URL of the source has either been written as a
    row or been dropped by the failure handler; the flag is set and the
    counter is zero from then on. *)
Theorem completion_settles_every_url (p : RqPool) (src : Reader) (fs : FS)
    (s : State) :
  pool_ok p -> reachable p src fs s -> triggered s ->
  inflight s = [] ∧ admitted s = src
  ∧ src ≡ₚ url <$> (saved s ++ evicted s)
  ∧ readURLsDone s = true ∧ imageCount s = 0.
Proof.
  intros Hp Hr Ht. pose proof (accounting_reachable _ _ _ _ Hp Hr) as Hacc.
  destruct (accounting_settled _ _ _ Hacc Ht) as (? & ? & ?).
  destruct (acc_done _ _ _ Hacc Ht). done.
Qed.

Lemma completion_settles_every_url_witness :
  ∃ s, run small_pool failing_run
         (Run_start small_pool ["http://www.test.com/bogus.jpg"%string] ∅)
       = Some s
       ∧ saved s = []
       ∧ ["http://www.test.com/bogus.jpg"%string]
         ≡ₚ url <$> (saved s ++ evicted s).
Proof.
  eexists. split; [vm_compute; reflexivity|]. split; [reflexivity|].
  eapply (completion_settles_every_url small_pool
            ["http://www.test.com/bogus.jpg"%string] ∅).
  - apply small_pool_ok.
  - apply (run_from_start _ _ _ failing_run). vm_compute. reflexivity.
  - left. discriminate.
Defined.

(** X3. The output holds exactly the rows of the saved jobs, in the order
    they were saved; the URLs of these rows are URLs of the source, none
    more often than the source has it; and rows and dropped jobs together
    never outnumber the lines of the source. *)
Theorem written_rows_come_from_source (p : RqPool) (src : Reader) (fs : FS)
    (s : State) :
  pool_ok p -> reachable p src fs s ->
  written s = row <$> saved s
  ∧ url <$> saved s ⊆+ src
  ∧ (length (written s) + length (evicted s) <= length src)%nat.
Proof.
  intros Hp Hr.
  destruct (accounting_reachable _ _ _ _ Hp Hr)
    as [Hperm _ Hrows Hsrc _ _ _ _].
  split; [done|]. rewrite <- Hsrc.
  rewrite !fmap_app in Hperm. split.
  - apply submseteq_inserts_r. rewrite Hperm.
    apply submseteq_inserts_l, submseteq_inserts_r. done.
  - apply Permutation_length in Hperm.
    rewrite !length_app, !length_fmap in Hperm.
    rewrite Hrows, length_fmap, length_app. lia.
Qed.

Lemma written_rows_come_from_source_witness :
  ∃ s, run small_pool good_run
         (Run_start small_pool ["http://www.test.com/valid.jpg"%string] ∅)
       = Some s
       ∧ written s
         = ["http://www.test.com/valid.jpg,#0a14ff,#000000,#000000" ++ newline]%string
       ∧ written s = row <$> saved s.
Proof.
  eexists. split; [vm_compute; reflexivity|]. split; [reflexivity|].
  eapply (written_rows_come_from_source small_pool
            ["http://www.test.com/valid.jpg"%string] ∅).
  - apply small_pool_ok.
  - apply (run_from_start _ _ _ good_run). vm_compute. reflexivity.
Defined.

(** X4. The failure count of a job never leaves [0..RqJobMaxFails]: a job
    that was written has failed at most twice, a job that was dropped at
    least once. *)
Theorem nFails_stays_within_max (p : RqPool) (src : Reader) (fs : FS)
    (s : State) (j : RqJob) :
  reachable p src fs s -> j ∈ all_jobs s ->
  0 <= nFails j <= RqJobMaxFails
  ∧ (j ∈ saved s -> nFails j < RqJobMaxFails)
  ∧ (j ∈ evicted s -> 1 <= nFails j).
Proof.
  intros Hr Hj. pose proof (fails_bounded_reachable _ _ _ _ Hr) as Hfb.
  split; [by eapply inflight_fails_ok|].
  destruct Hfb as [_ _ _ _ _ Hs Hv].
  rewrite Forall_forall in Hs, Hv. split; intros Hin.
  - apply Hs in Hin. unfold queued_ok, RqJobMaxFails in *. lia.
  - apply Hv in Hin. unfold failed_ok in Hin. lia.
Qed.

Lemma nFails_stays_within_max_witness :
  ∃ s j, run small_pool failing_run
           (Run_start small_pool ["http://www.test.com/bogus.jpg"%string] ∅)
         = Some s
         ∧ evicted s = [j] ∧ nFails j = 3
         ∧ 0 <= nFails j <= RqJobMaxFails.
Proof.
  eexists _, _. split; [vm_compute; reflexivity|].
  split; [reflexivity|]. split; [reflexivity|].
  eapply (nFails_stays_within_max small_pool
            ["http://www.test.com/bogus.jpg"%string] ∅).
  - apply (run_from_start _ _ _ failing_run). vm_compute. reflexivity.
  - vm_compute. apply list_elem_of_here.
Defined.

(** ** Shutdown *)

Lemma exits_full ws :
  exits ws = length ws -> Forall (fun w => w.2 = WExit) ws.
Proof.
  unfold exits. induction ws as [|w ws IH]; [done|].
  rewrite filter_cons. pose proof (exits_le ws) as Hle. unfold exits in Hle.
  case_decide; simpl; intros Hlen; [|lia].
  apply Forall_cons. split; [done|]. apply IH. lia.
Qed.

(** The tokens never outnumber the goroutines that wait for one. *)
Lemma tokens_bound p s :
  pool_ok p -> tokens_ok p s ->
  Z.of_nat (delivered s) + (1 - Z.of_nat (handler_exited s)) <= nWorkers p.
Proof.
  intros Hp [Hcount Hlen _ _ _ _ _].
  pose proof (exits_le (workers s)) as Hle.
  pose proof (Run_workers_length p Hp) as Hrw.
  pose proof (nWorkers_sum p Hp) as Hnw.
  unfold exited_workers, handler_exited in *.
  destruct (handler s); lia.
Qed.

(** X5. [stopWorkers] sends its tokens one at a time and each one ends one
    goroutine: the tokens taken so far are the stage workers that have
    returned plus the failure handler if it has; they never exceed
    [nDownload + nSummarize + nCleanup + 1]; none is taken before
    [stopOnce] is entered; and when [stopOnce] is done exactly that number
    has been taken. *)
Theorem stopWorkers_token_count (p : RqPool) (src : Reader) (fs : FS)
    (s : State) :
  pool_ok p -> reachable p src fs s ->
  delivered s = (exited_workers s + handler_exited s)%nat
  ∧ Z.of_nat (delivered s) <= nDownload p + nSummarize p + nCleanup p + 1
  ∧ (stopOnce s = OnceNew -> delivered s = 0%nat)
  ∧ (stopOnce s = OnceDone ->
     Z.of_nat (delivered s) = nDownload p + nSummarize p + nCleanup p + 1).
Proof.
  intros Hp Hr. pose proof (tokens_reachable _ _ _ _ Hp Hr) as Htk.
  pose proof (tokens_bound _ _ Hp Htk) as Hb.
  destruct Htk as [Hcount _ Hnew _ _ Hdone _].
  rewrite (nWorkers_sum p Hp) in *.
  split; [done|]. split; [|done].
  unfold handler_exited in Hb. destruct (handler s); lia.
Qed.

Lemma stopWorkers_token_count_witness :
  ∃ s, run small_pool good_run
         (Run_start small_pool ["http://www.test.com/valid.jpg"%string] ∅)
       = Some s
       ∧ stopOnce s = OnceDone
       ∧ Z.of_nat (delivered s) = 4.
Proof.
  eexists. split; [vm_compute; reflexivity|]. split; [reflexivity|].
  eapply (stopWorkers_token_count small_pool
            ["http://www.test.com/valid.jpg"%string] ∅).
  - apply small_pool_ok.
  - apply (run_from_start _ _ _ good_run). vm_compute. reflexivity.
  - reflexivity.
Defined.

(** X6. If [Run] returns (it passed [wg.Wait] and closed the channels),
    then every stage worker and the failure handler have returned, nothing
    is in flight, and every URL of the source was either written as a row
    or dropped; the output holds one row for each job written. *)
Theorem Run_returns_with_every_url_settled (p : RqPool) (src : Reader)
    (fs : FS) (s : State) :
  pool_ok p -> reachable p src fs s -> closed s = true ->
  Forall (fun w => w.2 = WExit) (workers s) ∧ handler s = HExit
  ∧ inflight s = [] ∧ admitted s = src
  ∧ src ≡ₚ url <$> (saved s ++ evicted s)
  ∧ written s = row <$> saved s.
Proof.
  intros Hp Hr Hc.
  pose proof (tokens_reachable _ _ _ _ Hp Hr) as Htk.
  pose proof (accounting_reachable _ _ _ _ Hp Hr) as Hacc.
  destruct (tk_closed _ _ Htk Hc) as [Hh Hex].
  assert (triggered s) as Ht.
  { left. intros Hnew. apply (tk_new _ _ Htk) in Hnew.
    pose proof (tk_count _ _ Htk) as Hcount.
    unfold handler_exited in Hcount. rewrite Hh in Hcount. lia. }
  destruct (accounting_settled _ _ _ Hacc Ht) as (? & ? & ?).
  split; [by apply exits_full|]. repeat split; try done.
  apply (acc_rows _ _ _ Hacc).
Qed.

Lemma Run_returns_with_every_url_settled_witness :
  ∃ s, run small_pool good_run
         (Run_start small_pool ["http://www.test.com/valid.jpg"%string] ∅)
       = Some s
       ∧ closed s = true
       ∧ ["http://www.test.com/valid.jpg"%string]
         ≡ₚ url <$> (saved s ++ evicted s).
Proof.
  eexists. split; [vm_compute; reflexivity|]. split; [reflexivity|].
  eapply (Run_returns_with_every_url_settled small_pool
            ["http://www.test.com/valid.jpg"%string] ∅).
  - apply small_pool_ok.
  - apply (run_from_start _ _ _ good_run). vm_compute. reflexivity.
  - reflexivity.
Defined.

(** X7. After a goroutine has found the pipeline complete, no step counts
    a URL in, writes a row or drops a job, and the counter stays at zero:
    whatever still runs only concerns the shutdown. *)
Theorem nothing_moves_after_completion (p : RqPool) (src : Reader) (fs : FS)
    (s : State) (l : Label) (s' : State) :
  pool_ok p -> reachable p src fs s -> triggered s ->
  step p l s = Some s' ->
  admitted s' = admitted s ∧ written s' = written s
  ∧ saved s' = saved s ∧ evicted s' = evicted s
  ∧ inflight s' = [] ∧ imageCount s' = 0.
Proof.
  intros Hp Hr Ht Hstep.
  pose proof (accounting_reachable _ _ _ _ Hp Hr) as Hacc.
  assert (accounting p src s') as Hacc'.
  { eapply accounting_reachable; [done|]. by eapply reach_step. }
  destruct (accounting_settled _ _ _ Hacc Ht) as (Hin & Hadm & _).
  destruct (acc_done _ _ _ Hacc Ht) as [_ Hz].
  destruct (step_booked _ _ _ _ Hstep) as [[u|j|j|] Hb]; simpl in Hb;
    unfold urls in Hb; rewrite Hin in Hb; simpl in Hb.
  - destruct Hb as (Had & _).
    pose proof (acc_source _ _ _ Hacc') as Hsrc'.
    rewrite Had, Hadm in Hsrc'. apply (f_equal length) in Hsrc'.
    rewrite !length_app in Hsrc'. simpl in Hsrc'. lia.
  - destruct Hb as (_ & Hperm & _).
    by apply Permutation_nil_cons in Hperm.
  - destruct Hb as (_ & Hperm & _).
    by apply Permutation_nil_cons in Hperm.
  - destruct Hb as (? & Hperm & ? & ? & ? & Hn).
    apply Permutation_nil_r in Hperm. apply fmap_nil_inv in Hperm.
    rewrite Hn, Hz. done.
Qed.

Lemma nothing_moves_after_completion_witness :
  ∃ s s', run small_pool (take 16 failing_run)
            (Run_start small_pool ["http://www.test.com/bogus.jpg"%string] ∅)
          = Some s
          ∧ step small_pool (LToken ByHandler (TokWorker 0)) s = Some s'
          ∧ evicted s' = evicted s ∧ imageCount s' = 0.
Proof.
  eexists _, _. split; [vm_compute; reflexivity|].
  split; [vm_compute; reflexivity|].
  refine ((fun H => conj (proj1 (proj2 (proj2 (proj2 H))))
                         (proj2 (proj2 (proj2 (proj2 (proj2 H))))))
            (nothing_moves_after_completion small_pool
               ["http://www.test.com/bogus.jpg"%string] ∅ _
               (LToken ByHandler (TokWorker 0)) _ _ _ _ _)).
  - apply small_pool_ok.
  - apply (run_from_start _ _ _ (take 16 failing_run)).
    vm_compute. reflexivity.
  - left. discriminate.
  - vm_compute. reflexivity.
Defined.

(** ** Shutdown from the failure handler *)

(** While the handler is inside [stopWorkers] it has taken no token
    itself, so one token is missing for the loop to end. *)
Lemma handler_stop_facts p s pc :
  pool_ok p -> tokens_ok p s -> handler s = HStop pc ->
  closed s = false ∧ stopOnce s ≠ OnceDone
  ∧ Z.of_nat (delivered s) < nWorkers p.
Proof.
  intros Hp Htk Hh. pose proof (tokens_bound _ _ Hp Htk) as Hb.
  unfold handler_exited in Hb. rewrite Hh in Hb.
  split; [|split; [|lia]].
  - destruct (closed s) eqn:Hc; [|done].
    destruct (tk_closed _ _ Htk Hc) as [Hx _]. congruence.
  - intros Hd. apply (tk_done _ _ Htk) in Hd. lia.
Qed.

Lemma handler_stop_step p l s s' pc :
  pool_ok p -> tokens_ok p s -> handler s = HStop pc ->
  step p l s = Some s' -> ∃ pc', handler s' = HStop pc'.
Proof.
  intros Hp Htk Hh H.
  destruct (handler_stop_facts _ _ _ Hp Htk Hh) as (_ & Hnd & Hlt).
  pose proof (tk_handler _ _ Htk) as Hi.
  step_cases H; csimpl; eauto; try congruence.
  destruct (Hi _ eq_refl) as (_ & -> & _).
  match goal with E : (_ <? _) = false |- _ => apply Z.ltb_ge in E end.
  lia.
Qed.

Lemma handler_stop_forever p src fs ls : ∀ s s' pc,
  pool_ok p -> reachable p src fs s -> handler s = HStop pc ->
  run p ls s = Some s' ->
  (∃ pc', handler s' = HStop pc') ∧ closed s' = false
  ∧ stopOnce s' ≠ OnceDone.
Proof.
  induction ls as [|l ls IH]; simpl; intros s s' pc Hp Hr Hh H.
  - simplify_eq.
    destruct (handler_stop_facts _ _ _ Hp (tokens_reachable _ _ _ _ Hp Hr) Hh)
      as (? & ? & _).
    eauto.
  - destruct (step p l s) as [s1|] eqn:Hs; [|done]. simpl in H.
    destruct (handler_stop_step _ _ _ _ _ Hp
                (tokens_reachable _ _ _ _ Hp Hr) Hh Hs) as [pc1 Hh1].
    eapply IH; [done| |exact Hh1|exact H]. by eapply reach_step.
Qed.

(** X8. When [handleError] drops the last job and calls [stopWorkers], the
    call never returns: the handler stays inside [stopWorkers] in every
    later state, [stopOnce] is never done, and [Run] never gets past
    [wg.Wait]. The loop of [stopWorkers] sends one token for the handler
    itself, and the handler cannot receive while it is sending. *)
Theorem stopWorkers_from_handleError_never_returns (p : RqPool)
    (src : Reader) (fs : FS) (s : State) (pc : StopPc) (ls : list Label)
    (s' : State) :
  pool_ok p -> reachable p src fs s -> handler s = HStop pc ->
  run p ls s = Some s' ->
  (∃ pc', handler s' = HStop pc') ∧ closed s' = false
  ∧ stopOnce s' ≠ OnceDone.
Proof. apply handler_stop_forever. Qed.

Lemma stopWorkers_from_handleError_never_returns_witness :
  ∃ s s', run small_pool (take 15 failing_run)
            (Run_start small_pool ["http://www.test.com/bogus.jpg"%string] ∅)
          = Some s
          ∧ run small_pool (drop 15 failing_run) s = Some s'
          ∧ handler s' = HStop (Sending 3)
          ∧ Forall (fun w => w.2 = WExit) (workers s')
          ∧ closed s' = false.
Proof.
  eexists _, _. split; [vm_compute; reflexivity|].
  split; [vm_compute; reflexivity|]. split; [reflexivity|].
  split; [repeat constructor|].
  eapply (stopWorkers_from_handleError_never_returns small_pool
            ["http://www.test.com/bogus.jpg"%string] ∅ _ AtOnce
            (drop 15 failing_run)).
  - apply small_pool_ok.
  - apply (run_from_start _ _ _ (take 15 failing_run)).
    vm_compute. reflexivity.
  - reflexivity.
  - vm_compute. reflexivity.
Defined.

(** X9. The decrement of the counter and the completion check that
    follows it are two operations: with the smallest pool and any two URLs
    there is an execution in which [writeResults] and [handleError] both
    decrement before either checks, so both find the pipeline complete and
    both call [stopWorkers]; from that state on [Run] can never return. *)
Theorem both_callers_can_find_completion (u1 u2 : string) :
  ∃ s, run small_pool racing_run (Run_start small_pool [u1; u2] ∅) = Some s
       ∧ handler s = HStop AtOnce ∧ sink s = SStop AtOnce
       ∧ ∀ ls s', run small_pool ls s = Some s' -> closed s' = false.
Proof.
  eexists. split; [vm_compute; reflexivity|].
  split; [reflexivity|]. split; [reflexivity|]. intros ls s' Hrun.
  match type of Hrun with
  | run _ _ ?s = _ =>
      apply (handler_stop_forever small_pool [u1; u2] ∅ ls s s' AtOnce)
  end; [apply small_pool_ok| |reflexivity|exact Hrun].
  apply (run_from_start _ _ _ racing_run). vm_compute. reflexivity.
Qed.

(** ** The empty source *)

Lemma idle_start p fs : idle (Run_start p [] fs).
Proof. split; simpl; try done; [by left | apply Run_workers_select]. Qed.

Lemma idle_step p l s s' : idle s -> step p l s = Some s' -> idle s'.
Proof.
  intros [Hf Hw Hh Hk He Ho Hc Hwr Hn] H.
  step_cases H; try congruence.
  all: try match goal with
    | E : workers _ !! _ = Some _ |- _ =>
        pose proof (Forall_lookup_1 _ _ _ _ Hw E) as Hsel; simpl in Hsel;
        try discriminate Hsel
    end.
  all: try (destruct Hf; congruence).
  all: try (rewrite Hh in *; simpl in *; rewrite andb_false_r in *;
            discriminate).
  split; simpl; try done. by right.
Qed.

Lemma idle_reachable p fs s : reachable p [] fs s -> idle s.
Proof.
  induction 1 as [|l s s' _ IH Hstep];
    [apply idle_start | by eapply idle_step].
Qed.

(** X10. With an empty source nobody ever calls [stopWorkers]: in every
    state of every execution the workers, the handler and [writeResults]
    are still waiting, nothing is written, and [Run] has not returned.
    [isDone] is only called after a decrement, and without a URL there is
    none. *)
Theorem empty_source_never_stops (p : RqPool) (fs : FS) (s : State) :
  reachable p [] fs s ->
  ¬ triggered s ∧ closed s = false ∧ written s = []
  ∧ handler s = HSelect ∧ sink s = SRange
  ∧ Forall (fun w => w.2 = WSelect) (workers s).
Proof.
  intros Hr. destruct (idle_reachable _ _ _ Hr)
    as [Hf Hw Hh Hk He Ho Hc Hwr Hn].
  repeat split; try done.
  intros [Hnew | [[pc Hpc] | [pc Hpc]]]; congruence.
Qed.

Lemma empty_source_never_stops_witness :
  ∃ s, run small_pool [LExhaust] (Run_start small_pool [] ∅) = Some s
       ∧ readURLsDone s = true ∧ imageCount s = 0
       ∧ ¬ triggered s ∧ closed s = false.
Proof.
  eexists. split; [vm_compute; reflexivity|].
  split; [reflexivity|]. split; [reflexivity|].
  refine ((fun H => conj (proj1 H) (proj1 (proj2 H)))
            (empty_source_never_stops small_pool ∅ _ _)).
  apply (run_from_start _ _ _ [LExhaust]). vm_compute. reflexivity.
Defined.

(** ** The summaries of the rows *)

Lemma work_summarized c fs j dl sm fs' e :
  work c fs j dl sm = Some (fs', e) -> job_summarized (Some c) j ->
  worker_summarized (c, emit_pc e).
Proof.
  unfold worker_summarized, job_summarized, error_summarized, late, summarized.
  intros Hw Hj. destruct c; simpl in Hw.
  - unfold workDownload, downloadImage in Hw.
    destruct dl; simplify_eq; simpl; intros [?|?]; done.
  - unfold workSummarize, summarizeImage in Hw.
    destruct sm; simpl in Hw; simplify_eq; simpl; try (intros [?|?]; done).
    destruct (getPrevalentColors_total pixels) as (cs & Hcs & Hlen & _).
    rewrite Hcs in Hw. simpl in Hw. simplify_eq. simpl. done.
  - unfold workCleanup, cleanupImage in Hw. simpl in Hw.
    specialize (Hj (or_introl eq_refl)).
    case_bool_decide; [simplify_eq; simpl; done|].
    destruct (os_Remove fs (filePath (image j))) as [fs1 [msg|]];
      simplify_eq; simpl; done.
  - discriminate.
Qed.

Lemma summaries_start p src fs : summaries_ok (Run_start p src fs).
Proof.
  split; simpl; try done.
  eapply Forall_impl; [apply Run_workers_select|].
  intros [c w] Hw. simpl in Hw. subst. done.
Qed.

Lemma summaries_step p l s s' :
  summaries_ok s -> step p l s = Some s' -> summaries_ok s'.
Proof.
  intros [Hw He Hh Hk Hs] H. step_cases H.
  all: try match goal with
    | |- context [if ?b then _ else _] => destruct b eqn:?
    end.
  all: repeat match goal with
    | E : feeder _ = _ |- _ => rewrite E in *; clear E
    | E : handler _ = _ |- _ => rewrite E in *; clear E
    | E : sink _ = _ |- _ => rewrite E in *; clear E
    | E : errorChn _ = _ |- _ => rewrite E in *; clear E
    | E : workers _ !! _ = Some _ |- _ =>
        pose proof (Forall_lookup_1 _ _ _ _ Hw E); apply lookup_lt_Some in E
    | E : handleError _ _ _ = Retry _ _ |- _ =>
        apply handleError_Retry in E as (-> & ? & _)
    end.
  all: split; csimpl in *; try done.
  all: repeat match goal with
    | H : Forall _ (_ :: _) |- _ => apply Forall_cons in H as [? ?]
    end.
  all: try match goal with
    | E : work _ _ _ _ _ = Some _ |- _ =>
        eapply work_summarized in E;
          [|first [eassumption | intros [?|?]; discriminate]]
    end.
  all: try (repeat apply Forall_insert; done).
  all: try (apply Forall_app; split; [done|]; apply Forall_singleton; done).
  all: try match goal with
    | E : Some (workDownload ?fs ?j ?dl) = Some (?f, ?e) |- _ =>
        pose proof (work_summarized downloadChn fs j dl (OpenFails "") f e E
                      ltac:(intros [?|?]; discriminate))
    end.
  all: try (repeat apply Forall_insert; done).
  all: repeat match goal with
    | E : bool_decide _ = true |- _ => apply bool_decide_eq_true_1 in E; subst
    end.
  all: try (match goal with H : worker_summarized _ |- _ => apply H end;
            by right).
  all: try (apply Hh; by right).
  - apply Forall_app. split; [done|]. apply Forall_singleton.
    intros _. done.
  - unfold job_summarized, error_summarized in *.
    match goal with H : retryChn _ = Some _ |- _ => rewrite H in * end. done.
Qed.

Lemma summaries_reachable p src fs s :
  reachable p src fs s -> summaries_ok s.
Proof.
  induction 1 as [|l s s' _ IH Hstep];
    [apply summaries_start | by eapply summaries_step].
Qed.

Lemma three_colours (l : list NRGBA) :
  length l = 3%nat -> ∃ c1 c2 c3, l = [c1; c2; c3].
Proof.
  destruct l as [|c1 [|c2 [|c3 [|c4 l]]]]; simpl; try lia. eauto.
Qed.

(** X11. Every row in the output is the URL of a line of the source,
    followed by exactly three colour fields and a newline: a job only
    reaches [writeResults] through [summarizeImage], whatever failures and
    requeues lie on its way. *)
Theorem written_rows_have_three_colours (p : RqPool) (src : Reader) (fs : FS)
    (s : State) (r : string) :
  pool_ok p -> reachable p src fs s -> r ∈ written s ->
  ∃ u c1 c2 c3,
    u ∈ src
    ∧ r = (u ++ "," ++ hexify c1 ++ "," ++ hexify c2 ++ "," ++ hexify c3
           ++ newline)%string.
Proof.
  intros Hp Hr Hin.
  pose proof (accounting_reachable _ _ _ _ Hp Hr) as Hacc.
  pose proof (summaries_reachable _ _ _ _ Hr) as Hsm.
  rewrite (acc_rows _ _ _ Hacc) in Hin.
  apply list_elem_of_fmap in Hin as (j & -> & Hj).
  pose proof (sm_saved _ Hsm) as Hall. rewrite Forall_forall in Hall.
  destruct (three_colours _ (Hall _ Hj)) as (c1 & c2 & c3 & Hcs).
  exists (url j), c1, c2, c3. split.
  - rewrite <- (acc_source _ _ _ Hacc). apply elem_of_app. left.
    rewrite (acc_perm _ _ _ Hacc). apply list_elem_of_fmap.
    exists j. split; [done|]. rewrite !elem_of_app. tauto.
  - rewrite row_fields, Hcs. reflexivity.
Qed.

Lemma written_rows_have_three_colours_witness :
  ∃ s u c1 c2 c3,
    run small_pool good_run
      (Run_start small_pool ["http://www.test.com/valid.jpg"%string] ∅)
    = Some s
    ∧ written s
      = ["http://www.test.com/valid.jpg,#0a14ff,#000000,#000000" ++ newline]%string
    ∧ u ∈ ["http://www.test.com/valid.jpg"%string]
    ∧ ("http://www.test.com/valid.jpg,#0a14ff,#000000,#000000" ++ newline
       = u ++ "," ++ hexify c1 ++ "," ++ hexify c2 ++ "," ++ hexify c3
         ++ newline)%string.
Proof.
  pose proof (written_rows_have_three_colours small_pool
    ["http://www.test.com/valid.jpg"%string] ∅
    (default (Run_start small_pool [] ∅)
       (run small_pool good_run
          (Run_start small_pool ["http://www.test.com/valid.jpg"%string] ∅)))
    ("http://www.test.com/valid.jpg,#0a14ff,#000000,#000000" ++ newline)%string
    small_pool_ok) as H.
  destruct H as (u & c1 & c2 & c3 & Hu & Hrow).
  - apply (run_from_start _ _ _ good_run). vm_compute. reflexivity.
  - vm_compute. apply list_elem_of_here.
  - eexists _, u, c1, c2, c3. split; [vm_compute; reflexivity|].
    split; [reflexivity|]. split; [exact Hu | exact Hrow].
Defined.

(** ** The path of one job *)

Lemma work_emit c fs j dl sm fs' e :
  work c fs j dl sm = Some (fs', e) ->
  match e with
  | SendJob ch j' =>
      (∃ c', ch = Some c' ∧ stage_index c' = S (stage_index c))
      ∧ nFails j' = nFails j ∧ url j' = url j
  | SendError e =>
      retryChn (job e) = Some c
      ∧ nFails (job e) = wrap_int (nFails j + 1)
      ∧ url (job e) = url j
      ∧ errorType e ≠ RqErrorNoRetry
  end.
Proof.
  destruct c; simpl; intros Hw.
  - unfold workDownload, downloadImage in Hw.
    destruct dl; simplify_eq; simpl; eauto 10.
  - unfold workSummarize, summarizeImage in Hw.
    destruct sm; simpl in Hw; simplify_eq; simpl; try done.
    destruct (getPrevalentColors pixels); simpl in Hw; simplify_eq.
    simpl. eauto 10.
  - unfold workCleanup, cleanupImage in Hw. simpl in Hw.
    case_bool_decide; [simplify_eq; simpl; eauto 10|].
    destruct (os_Remove fs (filePath (image j))) as [fs1 [msg|]];
      simplify_eq; simpl; eauto 10.
  - discriminate.
Qed.

Lemma work_total c fs j dl sm :
  c ≠ saveChn -> ∃ fs' e, work c fs j dl sm = Some (fs', e).
Proof.
  intros Hc. destruct c; simpl; try done.
  - destruct (workDownload fs j dl); eauto.
  - unfold workSummarize, summarizeImage.
    destruct sm as [msg|msg|pixels]; simpl; [by eexists _, _..|].
    destruct (getPrevalentColors_total pixels) as (cs & -> & _).
    by eexists _, _.
  - destruct (workCleanup fs j); eauto.
Qed.










(** ** The stage functions *)

(** X14. A stage worker that takes a job either offers it to the channel
    of the next stage with its failure count unchanged, or builds a failure
    record whose job is bound to the worker's own channel and has failed
    once more; the record is never of the kind that forbids a retry, and
    the URL of the job is never touched. No worker reads [saveChn]. *)
Theorem stage_worker_forwards_or_reports (c : Chan) (fs : FS) (j : RqJob)
    (dl : DownloadOutcome) (sm : SummarizeOutcome) :
  (c = saveChn -> work c fs j dl sm = None)
  ∧ (c ≠ saveChn ->
     ∃ fs' e, work c fs j dl sm = Some (fs', e)
       ∧ match e with
         | SendJob ch j' =>
             (∃ c', ch = Some c' ∧ stage_index c' = S (stage_index c))
             ∧ nFails j' = nFails j ∧ url j' = url j
         | SendError e =>
             retryChn (job e) = Some c
             ∧ nFails (job e) = wrap_int (nFails j + 1)
             ∧ url (job e) = url j
             ∧ errorType e ≠ RqErrorNoRetry
         end).
Proof.
  split; [by intros ->|]. intros Hc.
  destruct (work_total c fs j dl sm Hc) as (fs' & e & Hwork).
  exists fs', e. split; [done|]. by eapply work_emit.
Qed.

Lemma stage_worker_forwards_or_reports_witness :
  let j := mkJob (NewRqImage "http://www.test.com/valid.jpg") None None 0
             false in
  ∃ fs' e, work summarizeChn ∅ j (FetchOk "") (DecodeFails "unknown format")
           = Some (fs', e)
    ∧ match e with
      | SendJob ch j' =>
          (∃ c', ch = Some c' ∧ stage_index c' = S (stage_index summarizeChn))
          ∧ nFails j' = nFails j ∧ url j' = url j
      | SendError e =>
          retryChn (job e) = Some summarizeChn
          ∧ nFails (job e) = wrap_int (nFails j + 1)
          ∧ url (job e) = url j
          ∧ errorType e ≠ RqErrorNoRetry
      end.
Proof.
  intros j.
  apply (proj2 (stage_worker_forwards_or_reports summarizeChn ∅ j
                  (FetchOk "") (DecodeFails "unknown format"))).
  discriminate.
Defined.

(** X15. A download that fails after the temporary file was created
    leaves that file behind for good: the job in the failure record still
    has the path it came with, so neither a retry nor the removal in
    [handleError] ever touches the file. *)
Theorem failed_download_leaks_temp_file (fs : FS) (j : RqJob)
    (tmp msg : string) (n : Z) :
  filePath (image j) ≠ tmp ->
  ∃ fs1 e,
    downloadImage fs j (FetchFails tmp msg) = (fs1, SendError e)
    ∧ tmp ∈ fs1
    ∧ filePath (image (job e)) = filePath (image j)
    ∧ match handleError fs1 n e with
      | Evict fs2 _ => tmp ∈ fs2
      | Retry _ j' => filePath (image j') = filePath (image j)
      end.
Proof.
  intros Hne. eexists _, _. split; [reflexivity|].
  split; [apply elem_of_union_l, elem_of_singleton; done|].
  split; [done|].
  destruct (handleError _ n _) as [fs2 n2 | c j'] eqn:Hh.
  - apply handleError_Evict in Hh as (-> & _). simpl.
    rewrite elem_of_difference, elem_of_union, !elem_of_singleton.
    split; [by left|]. congruence.
  - apply handleError_Retry in Hh as (-> & _). done.
Qed.

Lemma failed_download_leaks_temp_file_witness :
  let j := mkJob (NewRqImage "http://www.test.com/bogus.jpg")
             (Some downloadChn) (Some summarizeChn) 2 false in
  ∃ fs1 e,
    downloadImage ∅ j (FetchFails "a.tmpimg" "Url invalid") = (fs1, SendError e)
    ∧ "a.tmpimg"%string ∈ fs1
    ∧ filePath (image (job e)) = filePath (image j)
    ∧ match handleError fs1 1 e with
      | Evict fs2 _ => "a.tmpimg"%string ∈ fs2
      | Retry _ j' => filePath (image j') = filePath (image j)
      end.
Proof.
  intros j.
  apply (failed_download_leaks_temp_file ∅ j "a.tmpimg" "Url invalid" 1).
  discriminate.
Defined.



(** X17. Dropping a job completes the pipeline exactly when the source is
    exhausted and the job was the only one in flight; a decrement at zero
    wraps around to the largest [uint64], after which [isDone] answers
    false. *)
Theorem handleError_completes_on_last_job (fs : FS) (n : Z) (e : RqError)
    (fs' : FS) (n' : Z) (flag : bool) :
  0 <= n < 2 ^ 64 -> handleError fs n e = Evict fs' n' ->
  (isDone flag n' = true <-> flag = true ∧ n = 1)
  ∧ (n = 0 -> n' = max_uint64).
Proof.
  intros Hn Hh. apply handleError_Evict in Hh as (_ & -> & _).
  unfold isDone. rewrite andb_true_iff, Z.eqb_eq.
  destruct (decide (n = 0)) as [-> | Hz].
  - split; [|done]. vm_compute. split; intros [? ?]; congruence.
  - rewrite atomic_decr by lia. split; [|done].
    split; intros [? ?]; split; try done; lia.
Qed.

Lemma handleError_completes_on_last_job_witness :
  let j := mkJob (NewRqImage "http://www.test.com/bogus.jpg")
             (Some downloadChn) (Some summarizeChn) 3 false in
  isDone true 0 = true <-> true = true ∧ 1 = 1.
Proof.
  intros j.
  apply (handleError_completes_on_last_job ∅ 1
           (mkError j RqErrorDownload "Url invalid") ∅ 0 true).
  - lia.
  - vm_compute. reflexivity.
Defined.

(** ** Colours *)

Lemma byte_to_N_inj (b1 b2 : byte) : Byte.to_N b1 = Byte.to_N b2 -> b1 = b2.
Proof.
  intros H. apply (f_equal Byte.of_N) in H.
  rewrite !Byte.of_to_N in H. congruence.
Qed.

(** X18. [hexify] tells two colours apart exactly when they differ in red,
    green or blue: equal strings mean equal channels, and the alpha channel
    plays no part. *)
Theorem hexify_injective_on_rgb (c1 c2 : NRGBA) :
  hexify c1 = hexify c2 <-> R c1 = R c2 ∧ G c1 = G c2 ∧ B c1 = B c2.
Proof.
  split.
  - intros Heq.
    destruct (hexify_shape c1)
      as (r1 & r2 & g1 & g2 & b1 & b2 & H1 & _ & Hr1 & Hg1 & Hb1).
    destruct (hexify_shape c2)
      as (r1' & r2' & g1' & g2' & b1' & b2' & H2 & _ & Hr2 & Hg2 & Hb2).
    rewrite H1, H2 in Heq. injection Heq as <- <- <- <- <- <-.
    repeat split; apply byte_to_N_inj; congruence.
  - intros (Hr & Hg & Hb). unfold hexify. by rewrite Hr, Hg, Hb.
Qed.

Lemma count_of_start x : count_of {[PlaceholderColor := 0]} x = 0.
Proof.
  unfold count_of. destruct (decide (x = PlaceholderColor)) as [-> | Hne].
  - by rewrite lookup_singleton_eq.
  - by rewrite lookup_singleton_ne.
Qed.

Lemma pixel_color_inj p q : pixel_color p = pixel_color q -> p = q.
Proof. destruct p as [[? ?] ?], q as [[? ?] ?]. by intros [= -> -> ->]. Qed.

(** X19. The slice is not always in order of prevalence: for three
    different colours [a], [b], [c] seen in this order and [c] seen once
    more, [c] is moved one place only and ends behind [a], which was seen
    once. One call of [updateMostFrequentColors] swaps at most one pair. *)
Theorem getPrevalentColors_one_swap_per_pixel (a b c : Pixel) :
  a ≠ b -> a ≠ c -> b ≠ c ->
  getPrevalentColors [a; b; c; c]
  = Some (mkSummary [pixel_color a; pixel_color c; pixel_color b]).
Proof.
  intros Hab Hac Hbc.
  pose proof (pixel_color_not_placeholder a) as HaP.
  pose proof (pixel_color_not_placeholder b) as HbP.
  pose proof (pixel_color_not_placeholder c) as HcP.
  assert (pixel_color a ≠ pixel_color b) as Hab'
    by (intros ?%pixel_color_inj; done).
  assert (pixel_color a ≠ pixel_color c) as Hac'
    by (intros ?%pixel_color_inj; done).
  assert (pixel_color b ≠ pixel_color c) as Hbc'
    by (intros ?%pixel_color_inj; done).
  unfold getPrevalentColors, pixel_loop, updateMostFrequentColors.
  repeat first
    [ rewrite count_of_incr_same
    | rewrite count_of_incr_ne by congruence
    | rewrite count_of_start
    | rewrite bool_decide_eq_true_2 by done
    | rewrite bool_decide_eq_false_2 by congruence
    | progress simpl ].
  reflexivity.
Qed.

Lemma getPrevalentColors_one_swap_per_pixel_witness :
  getPrevalentColors
    [(xff, x00, x00); (x00, xff, x00); (x00, x00, xff); (x00, x00, xff)]
  = Some (mkSummary [mkNRGBA xff x00 x00 xff; mkNRGBA x00 x00 xff xff;
                     mkNRGBA x00 xff x00 xff]).
Proof.
  apply (getPrevalentColors_one_swap_per_pixel
           (xff, x00, x00) (x00, xff, x00) (x00, x00, xff)); discriminate.
Defined.

(** ** The colours of the summary *)

Lemma own_colors_perm seen seen' m m' :
  m' ≡ₚ m -> seen ⊆ seen' -> own_colors seen m -> own_colors seen' m'.
Proof.
  intros Hp Hs (Hnd & HP & Hsub). split; [|split].
  - by apply (NoDup_Permutation_proper _ _ Hp).
  - intros HP'. apply HP. by apply (elem_of_Permutation_proper _ _ _ Hp).
  - intros x Hx. apply Hs, Hsub.
    by apply (elem_of_Permutation_proper _ _ _ Hp).
Qed.

Lemma own_colors_update seen counts m c :
  c ≠ PlaceholderColor -> length m = 3%nat -> own_colors seen m ->
  ∃ m', updateMostFrequentColors m c counts = Some m'
        ∧ length m' = 3%nat ∧ own_colors ({[c]} ∪ seen) m'.
Proof.
  intros HcP Hlen Hown.
  destruct m as [|m0 [|m1 [|m2 [|]]]]; try discriminate.
  assert (seen ⊆ {[c]} ∪ seen) as Hs by apply union_subseteq_r.
  unfold updateMostFrequentColors.
  destruct (bool_decide (c = m0) || bool_decide (c = m1)
            || bool_decide (c = m2)) eqn:Hin.
  - destruct (bool_decide (c = m1) && _);
      [|destruct (bool_decide (c = m2) && _)];
      eexists; (split; [reflexivity|]); (split; [done|]);
      (eapply own_colors_perm; [|exact Hs|exact Hown]).
    + apply Permutation_swap.
    + apply Permutation_skip, Permutation_swap.
    + done.
  - rewrite !orb_false_iff, !bool_decide_eq_false in Hin.
    destruct Hin as [[Hc0 Hc1] Hc2].
    destruct Hown as (Hnd & HP & Hsub).
    apply NoDup_cons in Hnd as [H0 Hnd]. apply NoDup_cons in Hnd as [H1 _].
    apply not_elem_of_cons in H0 as [H01 H0].
    apply not_elem_of_cons in H0 as [H02 _].
    apply not_elem_of_cons in H1 as [H12 _].
    apply not_elem_of_cons in HP as [HP0 HP].
    apply not_elem_of_cons in HP as [HP1 HP].
    apply not_elem_of_cons in HP as [HP2 _].
    destruct (_ <? _).
    + rewrite (bool_decide_eq_false_2 (m0 = PlaceholderColor)) by done.
      rewrite (bool_decide_eq_false_2 (m1 = PlaceholderColor)) by done.
      rewrite (bool_decide_eq_false_2 (m2 = PlaceholderColor)) by done.
      eexists. split; [reflexivity|]. split; [done|].
      split; [|split].
      * rewrite !NoDup_cons, !not_elem_of_cons.
        repeat split; try done; try apply not_elem_of_nil;
          try apply NoDup_nil_2; intros Heq; subst; done.
      * rewrite !not_elem_of_cons.
        repeat split; try done; try apply not_elem_of_nil;
          intros Heq; subst; done.
      * intros x. rewrite !elem_of_cons, elem_of_union, elem_of_singleton.
        intros [-> | [-> | [-> | Hx]]].
        -- right. apply Hsub. rewrite !elem_of_cons. tauto.
        -- right. apply Hsub. rewrite !elem_of_cons. tauto.
        -- by left.
        -- by apply not_elem_of_nil in Hx.
    + eexists. split; [reflexivity|]. split; [done|].
      eapply own_colors_perm; [done|exact Hs|].
      split; [|split]; [| |exact Hsub].
      * rewrite !NoDup_cons, !not_elem_of_cons.
        repeat split; try done; try apply not_elem_of_nil;
          try apply NoDup_nil_2.
      * rewrite !not_elem_of_cons.
        repeat split; try done; try apply not_elem_of_nil.
Qed.

Lemma updateMostFrequentColors_full seen counts m c :
  c ≠ PlaceholderColor ->
  loop_inv_full seen counts m ->
  ∃ m', updateMostFrequentColors m c (count_incr counts c) = Some m'
        ∧ loop_inv_full ({[c]} ∪ seen) (count_incr counts c) m'.
Proof.
  intros HcP [Hlen [[Hbig Hown] | Hfew]].
  - destruct (own_colors_update seen (count_incr counts c) m c HcP Hlen Hown)
      as (m' & Hm' & Hlen' & Hown').
    exists m'. split; [done|]. split; [done|]. left. split; [|done].
    etrans; [exact Hbig|]. apply subseteq_size, union_subseteq_r.
  - destruct (updateMostFrequentColors_inv seen counts m c HcP
                (conj Hlen (or_intror Hfew)))
      as (m' & Hm' & Hlen' & [Hbig' | Hfew']).
    2:{ exists m'. split; [done|]. split; [done|]. by right. }
    exists m'. split; [done|]. split; [done|]. left. split; [done|].
    destruct Hfew as (l & Hnd & -> & HP & Hl & -> & Hcnt).
    destruct (decide (c ∈ l)) as [Hin | Hnin].
    { rewrite (seen_again _ _ Hin), size_list_to_set in Hbig' by done. lia. }
    assert (NoDup (l ++ [c])) as Hnd'.
    { apply NoDup_app. split; [done|]. split; [|apply NoDup_singleton].
      intros x Hx ->%list_elem_of_singleton. done. }
    rewrite seen_new in Hbig' |- *.
    rewrite size_list_to_set, length_app in Hbig' by done. simpl in Hbig'.
    assert (count_of (count_incr counts c) PlaceholderColor = 0) as HcntP.
    { rewrite count_of_incr_ne by done. by apply Hcnt. }
    assert (count_of (count_incr counts c) c = 1) as Hone.
    { rewrite count_of_incr_same, Hcnt by done. reflexivity. }
    destruct l as [|a [|b [|]]]; simpl in *; try lia.
    apply not_elem_of_cons in HP as [HPa HPb%not_elem_of_cons].
    destruct HPb as [HPb _].
    apply not_elem_of_cons in Hnin as [Hca Hcb%not_elem_of_cons].
    destruct Hcb as [Hcb _].
    rewrite (bool_decide_eq_false_2 (c = a)) in Hm' by done.
    rewrite (bool_decide_eq_false_2 (c = b)) in Hm' by done.
    rewrite (bool_decide_eq_false_2 (c = PlaceholderColor)) in Hm' by done.
    simpl in Hm'. rewrite HcntP, Hone in Hm'. simpl in Hm'.
    rewrite (bool_decide_eq_false_2 (a = PlaceholderColor)) in Hm' by done.
    rewrite (bool_decide_eq_false_2 (b = PlaceholderColor)) in Hm' by done.
    simpl in Hm'. injection Hm' as <-.
    split; [done|]. split.
    + rewrite !not_elem_of_cons.
      repeat split; try done; try apply not_elem_of_nil; congruence.
    + intros x Hx. rewrite !elem_of_cons in Hx.
      rewrite !elem_of_union, !elem_of_singleton.
      destruct Hx as [? | [? | [? | Hx]]]; [tauto..|].
      by apply not_elem_of_nil in Hx.
Qed.

Lemma pixel_loop_full pixels : ∀ seen counts m,
  loop_inv_full seen counts m ->
  ∃ m' counts', pixel_loop pixels counts m = Some m'
                ∧ loop_inv_full (image_colors pixels ∪ seen) counts' m'.
Proof.
  induction pixels as [|p pixels IH]; intros seen counts m Hinv.
  - exists m, counts. split; [done|].
    replace (image_colors [] ∪ seen) with seen; [done|].
    apply set_eq. intros x. unfold image_colors. simpl.
    rewrite elem_of_union, elem_of_empty. tauto.
  - destruct (updateMostFrequentColors_full seen counts m (pixel_color p)
                (pixel_color_not_placeholder p) Hinv) as (m1 & Hm1 & Hinv1).
    destruct (IH _ _ _ Hinv1) as (m' & counts' & Hloop & Hinv').
    exists m', counts'. simpl. rewrite Hm1. split; [done|].
    replace (image_colors (p :: pixels) ∪ seen)
      with (image_colors pixels ∪ ({[pixel_color p]} ∪ seen)); [done|].
    apply set_eq. intros x. unfold image_colors. simpl.
    rewrite !elem_of_union. tauto.
Qed.

(** X20. [getPrevalentColors] never fails and its three entries never
    repeat a colour of the image. An image with at least three different
    colours gets three different colours of its own and no placeholder; an
    image with fewer gets each of its colours once, from the left, and the
    placeholder in the remaining slots. *)
Theorem getPrevalentColors_returns_colours_of_the_image
    (pixels : list Pixel) :
  ∃ s, getPrevalentColors pixels = Some s
    ∧ length (colors s) = 3%nat
    ∧ ((3 <= distinct_colors pixels)%nat ->
       NoDup (colors s) ∧ (PlaceholderColor ∉ colors s)
       ∧ ∀ c, c ∈ colors s -> c ∈ image_colors pixels)
    ∧ ((distinct_colors pixels < 3)%nat ->
       ∃ l, NoDup l ∧ image_colors pixels = list_to_set l
         ∧ colors s
           = l ++ replicate (3 - distinct_colors pixels) PlaceholderColor).
Proof.
  assert (loop_inv_full ∅ {[PlaceholderColor := 0]}
            [PlaceholderColor; PlaceholderColor; PlaceholderColor]) as Hstart.
  { destruct loop_inv_start as [Hlen [Hbig | Hfew]].
    - rewrite size_empty in Hbig. lia.
    - split; [done|]. by right. }
  destruct (pixel_loop_full pixels _ _ _ Hstart)
    as (m & counts & Hloop & Hlen & Hinv).
  exists (mkSummary m). unfold getPrevalentColors. rewrite Hloop.
  split; [done|]. split; [done|]. simpl.
  replace (image_colors pixels ∪ ∅) with (image_colors pixels) in Hinv.
  2:{ apply set_eq. intros x. rewrite elem_of_union, elem_of_empty. tauto. }
  unfold distinct_colors.
  destruct Hinv as [[Hbig Hown] | (l & Hnd & Hseen & _ & Hl & -> & _)].
  - split; [done|]. lia.
  - rewrite Hseen, size_list_to_set by done. split; [lia|].
    intros _. exists l. done.
Qed.

Lemma getPrevalentColors_returns_colours_of_the_image_witness :
  let pixels := [(x0a, x14, xff); (x0a, x14, xff)] in
  (distinct_colors pixels < 3)%nat
  ∧ ∃ s, getPrevalentColors pixels = Some s
      ∧ ∃ l, NoDup l ∧ image_colors pixels = list_to_set l
          ∧ colors s
            = l ++ replicate (3 - distinct_colors pixels) PlaceholderColor.
Proof.
  intros pixels.
  assert (distinct_colors pixels < 3)%nat as Hd by (vm_compute; lia).
  split; [exact Hd|].
  destruct (getPrevalentColors_returns_colours_of_the_image pixels)
    as (s & Hs & _ & _ & Hfew).
  exists s. split; [exact Hs | exact (Hfew Hd)].
Defined.

